(** * ser_cmd.py: a shallow embedding of the serial command transport

    The program talks to a hardware unit over a serial line.  Everything it
    does is I/O, so the embedding threads an explicit [world] through a small
    state-and-exception monad: the clock, the table of serial connections
    with the bytes each device will deliver, the operator's keyboard input,
    the printed output and the log.

    What stands for the environment:
    - Time is counted in milliseconds.  [time.sleep(0.01)] advances the clock
      by 10, a read that has to wait advances it by the read timeout, and
      nothing else takes time.
    - A device is a timeline fixed when its port is opened: chunks of bytes
      with their delays, and the moment at which the link goes down, if it
      does.  Since the program is deterministic, quantifying over timelines
      covers every device, also one that reacts to what is written.
    - The serial library raises [serial.SerialException] when a port cannot
      be opened and when a connection is used while it is closed or the link
      is down; closing does not fail.  Flow control never holds a write
      back.
    - A connection is closed by [close] only; what the interpreter does with
      an object that is no longer referenced is not part of the model.
    - Exceptions are raised by the statements of the program and by the
      library.  An interrupt from the keyboard in the middle of an exchange
      is not modelled.
    - Loops take a bound on their number of iterations, and [Diverge] is the
      outcome when it is reached. *)

From Stdlib Require Import List NArith ZArith Bool Lia.
From Stdlib Require Import Strings.String Strings.Ascii Strings.Byte.
Import ListNotations.

Local Open Scope Z_scope.

(** ** Python text and bytes *)

(** A Python [str] is a sequence of Unicode code points, a [bytes] object a
    sequence of octets. *)
Definition pystr := list N.
Definition bytes := list byte.

(** A literal of the source, written as a Rocq string of ASCII characters. *)
Definition lit (s : string) : pystr :=
  map N_of_ascii (list_ascii_of_string s).

Definition octet (n : N) : byte :=
  match Byte.of_N (n mod 256) with
  | Some b => b
  | None => x00
  end.

Section Sequences.
Context {A : Type} (eqb : A -> A -> bool).

Fixpoint seq_eqb (xs ys : list A) : bool :=
  match xs, ys with
  | [], [] => true
  | x :: xs', y :: ys' => eqb x y && seq_eqb xs' ys'
  | _, _ => false
  end.

(** [s.startswith(p)] *)
Fixpoint startswith (p s : list A) : bool :=
  match p, s with
  | [], _ => true
  | x :: p', y :: s' => eqb x y && startswith p' s'
  | _ :: _, [] => false
  end.

(** [p in s] on [str] and on [bytes]: [p] occurs as a contiguous run. *)
Fixpoint contains (p s : list A) : bool :=
  startswith p s ||
  match s with
  | [] => false
  | _ :: s' => contains p s'
  end.
End Sequences.

Definition str_eqb : pystr -> pystr -> bool := seq_eqb N.eqb.
Definition str_startswith : pystr -> pystr -> bool := startswith N.eqb.
Definition str_in : pystr -> pystr -> bool := contains N.eqb.
Definition bytes_in : bytes -> bytes -> bool := contains Byte.eqb.

(** [b'\n\n'], the end-of-message marker of the device protocol. *)
Definition NLNL : bytes := [x0a; x0a].

(** [str(n)] for a non-negative integer. *)
Fixpoint digits (fuel : nat) (n : N) (acc : pystr) : pystr :=
  match fuel with
  | O => acc
  | S f =>
      let acc' := (48 + n mod 10)%N :: acc in
      if (n / 10 =? 0)%N then acc' else digits f (n / 10)%N acc'
  end.

Definition str_of_N (n : N) : pystr := digits (S (N.to_nat (N.log2 n))) n [].

(** *** UTF-8, as [str.encode()] and [bytes.decode('utf-8')] apply it

    Both are strict: surrogates are not encoded, and overlong forms,
    surrogates, values above U+10FFFF and truncated sequences are not
    decoded. *)
Definition encode_cp (c : N) : option bytes :=
  (if c <? 128 then Some [octet c]
   else if c <? 2048 then Some [octet (192 + c / 64); octet (128 + c mod 64)]
   else if c <? 65536 then
     if (55296 <=? c) && (c <=? 57343) then None
     else Some [octet (224 + c / 4096); octet (128 + (c / 64) mod 64);
                octet (128 + c mod 64)]
   else if c <? 1114112 then
     Some [octet (240 + c / 262144); octet (128 + (c / 4096) mod 64);
           octet (128 + (c / 64) mod 64); octet (128 + c mod 64)]
   else None)%N.

Fixpoint encode (s : pystr) : option bytes :=
  match s with
  | [] => Some []
  | c :: s' =>
      match encode_cp c, encode s' with
      | Some b, Some bs => Some (b ++ bs)
      | _, _ => None
      end
  end.

Definition in_range (lo hi : N) (b : byte) : bool :=
  ((lo <=? Byte.to_N b) && (Byte.to_N b <=? hi))%N.

Definition low6 (b : byte) : N := (Byte.to_N b mod 64)%N.

Fixpoint decode (bs : bytes) : option pystr :=
  match bs with
  | [] => Some []
  | b0 :: t0 =>
      let n0 := Byte.to_N b0 in
      if (n0 <? 128)%N then option_map (cons n0) (decode t0)
      else if in_range 194 223 b0 then
        match t0 with
        | b1 :: t1 =>
            if in_range 128 191 b1
            then option_map (cons ((n0 - 192) * 64 + low6 b1)%N) (decode t1)
            else None
        | _ => None
        end
      else if in_range 224 239 b0 then
        match t0 with
        | b1 :: b2 :: t2 =>
            if in_range (if (n0 =? 224)%N then 160 else 128)
                        (if (n0 =? 237)%N then 159 else 191) b1
               && in_range 128 191 b2
            then option_map
                   (cons ((n0 - 224) * 4096 + low6 b1 * 64 + low6 b2)%N)
                   (decode t2)
            else None
        | _ => None
        end
      else if in_range 240 244 b0 then
        match t0 with
        | b1 :: b2 :: b3 :: t3 =>
            if in_range (if (n0 =? 240)%N then 144 else 128)
                        (if (n0 =? 244)%N then 143 else 191) b1
               && in_range 128 191 b2 && in_range 128 191 b3
            then option_map
                   (cons ((n0 - 240) * 262144 + low6 b1 * 4096
                          + low6 b2 * 64 + low6 b3)%N)
                   (decode t3)
            else None
        | _ => None
        end
      else None
  end.

(** ** Values and exceptions *)

(** The argument of [request_bap] is checked with [isinstance(cmd, str)], so
    it is modelled as an arbitrary Python value. *)
Inductive pyval :=
| VStr (s : pystr)
| VBytes (b : bytes)
| VInt (z : Z)
| VBool (b : bool)
| VNone.


Inductive exn :=
| Exception_ (msg : pystr)       (* [raise Exception(msg)] *)
| TypeError (msg : pystr)
| SerialException                (* raised by the serial library *)
| UnicodeEncodeError
| UnicodeDecodeError
| ValueError
| IndexError
| EOFError
| KeyboardInterrupt
| SystemExit (code : Z).

(** The classes named in the [except] clauses of the source. *)
Inductive exn_class := ClsException | ClsSerialException | ClsKeyboardInterrupt.

(** [isinstance(e, cls)]: [KeyboardInterrupt] and [SystemExit] derive from
    [BaseException] only; every other exception derives from [Exception]. *)
Definition catches (cls : exn_class) (e : exn) : bool :=
  match cls, e with
  | ClsException, (KeyboardInterrupt | SystemExit _) => false
  | ClsException, _ => true
  | ClsSerialException, SerialException => true
  | ClsSerialException, _ => false
  | ClsKeyboardInterrupt, KeyboardInterrupt => true
  | ClsKeyboardInterrupt, _ => false
  end.

(** ** The world *)

(** What a device sends after its port is opened: chunks of bytes, each with
    the delay in milliseconds since the previous chunk (the first since the
    open), and the moment, if any, at which the link goes down. *)
Record device := {
  script : list (N * bytes);
  unplug : option N
}.

(** A [serial.Serial] object. *)
Record conn := {
  c_port : pystr;
  c_baudrate : N;
  c_timeout : option Z;            (* read timeout, ms; [None] blocks *)
  c_rtscts : bool;
  c_open : bool;
  c_ref : Z;                       (* when the last chunk arrived *)
  c_incoming : list (N * bytes);   (* chunks still on their way *)
  c_rx : bytes;                    (* arrived and not yet read *)
  c_tx : list bytes;               (* what was written, one item per call *)
  c_fault : option Z               (* when the link goes down *)
}.

(** What the program cannot see into: the operating system, the attached
    devices and the built-in [int]. *)
Record host := {
  platform : pystr;                (* [sys.platform] *)
  glob_tty : list pystr;           (* [glob.glob('/dev/tty[A-Za-z]*')] *)
  can_open : pystr -> bool;        (* does opening the port succeed *)
  device_on : pystr -> device;
  int_of_str : pystr -> option Z   (* [int(s)]; [None] is [ValueError] *)
}.

Inductive logmsg :=
| Text (s : pystr)
| OfExn (e : exn).

Record log_record := {
  l_logger : string;
  l_level : N;
  l_msg : logmsg;
  l_emitted : bool                 (* did the record pass the level check *)
}.

Record world := {
  env : host;
  clock : Z;
  conns : list conn;
  stdin : list pystr;
  stdout : list pystr;
  root_level : N;
  logger_levels : list (string * N);
  log : list log_record
}.

Definition handle := nat.

Definition set_clock (t : Z) (w : world) : world :=
  {| env := env w; clock := t; conns := conns w; stdin := stdin w;
     stdout := stdout w; root_level := root_level w;
     logger_levels := logger_levels w; log := log w |}.

Definition set_conns (cs : list conn) (w : world) : world :=
  {| env := env w; clock := clock w; conns := cs; stdin := stdin w;
     stdout := stdout w; root_level := root_level w;
     logger_levels := logger_levels w; log := log w |}.

Definition set_stdin (l : list pystr) (w : world) : world :=
  {| env := env w; clock := clock w; conns := conns w; stdin := l;
     stdout := stdout w; root_level := root_level w;
     logger_levels := logger_levels w; log := log w |}.

Definition set_stdout (l : list pystr) (w : world) : world :=
  {| env := env w; clock := clock w; conns := conns w; stdin := stdin w;
     stdout := l; root_level := root_level w;
     logger_levels := logger_levels w; log := log w |}.

Definition set_root_level (n : N) (w : world) : world :=
  {| env := env w; clock := clock w; conns := conns w; stdin := stdin w;
     stdout := stdout w; root_level := n;
     logger_levels := logger_levels w; log := log w |}.

Definition set_logger_levels (l : list (string * N)) (w : world) : world :=
  {| env := env w; clock := clock w; conns := conns w; stdin := stdin w;
     stdout := stdout w; root_level := root_level w;
     logger_levels := l; log := log w |}.

Definition set_log (l : list log_record) (w : world) : world :=
  {| env := env w; clock := clock w; conns := conns w; stdin := stdin w;
     stdout := stdout w; root_level := root_level w;
     logger_levels := logger_levels w; log := l |}.

(** ** The monad: state, exceptions, and a bound on loop iterations *)

Inductive result (A : Type) :=
| Ret (a : A)
| Raise (e : exn)
| Diverge.                         (* the iteration bound was reached *)
Arguments Ret {A} a.
Arguments Raise {A} e.
Arguments Diverge {A}.

Definition M (A : Type) := world -> result A * world.

Definition ret {A} (a : A) : M A := fun w => (Ret a, w).
Definition raise {A} (e : exn) : M A := fun w => (Raise e, w).
Definition diverge {A} : M A := fun w => (Diverge, w).

Definition bind {A B} (m : M A) (k : A -> M B) : M B :=
  fun w =>
    match m w with
    | (Ret a, w') => k a w'
    | (Raise e, w') => (Raise e, w')
    | (Diverge, w') => (Diverge, w')
    end.

(** [try: m  except cls as e: h e] *)
Definition try_except {A} (m : M A) (cls : exn_class) (h : exn -> M A) : M A :=
  fun w =>
    match m w with
    | (Raise e, w') => if catches cls e then h e w' else (Raise e, w')
    | r => r
    end.

Declare Scope py_scope.
Delimit Scope py_scope with py.
Notation "x <- m ;; k" := (bind m (fun x => k))
  (at level 61, m at next level, right associativity) : py_scope.
Notation "m ;; k" := (bind m (fun _ => k))
  (at level 61, right associativity) : py_scope.
Local Open Scope py_scope.

(** ** Time, terminal and logging *)

(** [time.time()], in milliseconds. *)
Definition time_time : M Z := fun w => (Ret (clock w), w).

(** [time.sleep(ms / 1000)] *)
Definition time_sleep (ms : Z) : M unit :=
  fun w => (Ret tt, set_clock (clock w + ms) w).

Definition NL : pystr := [10%N].

(** [print(s)] *)
Definition print (s : pystr) : M unit :=
  fun w => (Ret tt, set_stdout (stdout w ++ [s ++ NL]) w).

(** [input(prompt)]: the prompt is shown, a line is read; at end of input
    [EOFError] is raised. *)
Definition input (prompt : pystr) : M pystr :=
  fun w =>
    let w1 := set_stdout (stdout w ++ [prompt]) w in
    match stdin w1 with
    | [] => (Raise EOFError, w1)
    | l :: ls => (Ret l, set_stdin ls w1)
    end.

Definition DEBUG : N := 10.
Definition INFO : N := 20.
Definition WARNING : N := 30.
Definition ERROR : N := 40.
Definition CRITICAL : N := 50.

Fixpoint own_level (name : string) (l : list (string * N)) : option N :=
  match l with
  | [] => None
  | (n, v) :: l' => if String.eqb n name then Some v else own_level name l'
  end.

(** [logger.getEffectiveLevel()]: the logger's own level when it was set,
    the root logger's otherwise. *)
Definition effective_level (name : string) (w : world) : N :=
  match own_level name (logger_levels w) with
  | Some v => v
  | None => root_level w
  end.

(** [logging.getLogger(name).setLevel(level)] *)
Definition setLevel (name : string) (level : N) : M unit :=
  fun w => (Ret tt, set_logger_levels ((name, level) :: logger_levels w) w).

(** [logging.basicConfig(level=level)] *)
Definition basicConfig (level : N) : M unit :=
  fun w => (Ret tt, set_root_level level w).

(** [logging.getLogger(name).log(level, msg)] *)
Definition log_at (name : string) (level : N) (msg : logmsg) : M unit :=
  fun w =>
    let r := {| l_logger := name; l_level := level; l_msg := msg;
                l_emitted := (effective_level name w <=? level)%N |} in
    (Ret tt, set_log (log w ++ [r]) w).

(** ** The serial library, as the program uses it *)

(** Chunks whose time has come move to the receive buffer. *)
Fixpoint arrive (t ref : Z) (inc : list (N * bytes)) (rx : bytes)
  : Z * list (N * bytes) * bytes :=
  match inc with
  | [] => (ref, [], rx)
  | (d, bs) :: rest =>
      if ref + Z.of_N d <=? t
      then arrive t (ref + Z.of_N d) rest (rx ++ bs)
      else (ref, inc, rx)
  end.

Definition set_line (ref : Z) (inc : list (N * bytes)) (rx : bytes) (c : conn)
  : conn :=
  {| c_port := c_port c; c_baudrate := c_baudrate c; c_timeout := c_timeout c;
     c_rtscts := c_rtscts c; c_open := c_open c; c_ref := ref;
     c_incoming := inc; c_rx := rx; c_tx := c_tx c; c_fault := c_fault c |}.

Definition set_tx (tx : list bytes) (c : conn) : conn :=
  {| c_port := c_port c; c_baudrate := c_baudrate c; c_timeout := c_timeout c;
     c_rtscts := c_rtscts c; c_open := c_open c; c_ref := c_ref c;
     c_incoming := c_incoming c; c_rx := c_rx c; c_tx := tx;
     c_fault := c_fault c |}.

Definition set_open (b : bool) (c : conn) : conn :=
  {| c_port := c_port c; c_baudrate := c_baudrate c; c_timeout := c_timeout c;
     c_rtscts := c_rtscts c; c_open := b; c_ref := c_ref c;
     c_incoming := c_incoming c; c_rx := c_rx c; c_tx := c_tx c;
     c_fault := c_fault c |}.

Definition settle (t : Z) (c : conn) : conn :=
  let '(ref, inc, rx) := arrive t (c_ref c) (c_incoming c) (c_rx c) in
  set_line ref inc rx c.

(** The port is closed or the link has gone down: every operation on the
    connection raises [SerialException]. *)
Definition down (t : Z) (c : conn) : bool :=
  negb (c_open c) ||
  match c_fault c with
  | Some f => f <=? t
  | None => false
  end.

Fixpoint replace_nth {A} (n : nat) (x : A) (l : list A) : list A :=
  match n, l with
  | _, [] => []
  | O, _ :: l' => x :: l'
  | S n', y :: l' => y :: replace_nth n' x l'
  end.

Definition put_conn (h : handle) (c : conn) (w : world) : world :=
  set_conns (replace_nth h c (conns w)) w.

(** The connection behind a handle, brought up to the present, when it can
    be used. *)
Definition usable (h : handle) (w : world) : option conn :=
  match nth_error (conns w) h with
  | Some c => if down (clock w) c then None else Some (settle (clock w) c)
  | None => None
  end.

(** [serial.Serial(port, baudrate, timeout=..., rtscts=...)] *)
Definition Serial (port : pystr) (baudrate : N) (timeout : option Z)
  (rtscts : bool) : M handle :=
  fun w =>
    if can_open (env w) port then
      let d := device_on (env w) port in
      let c := {| c_port := port; c_baudrate := baudrate;
                  c_timeout := timeout; c_rtscts := rtscts; c_open := true;
                  c_ref := clock w; c_incoming := script d; c_rx := [];
                  c_tx := [];
                  c_fault := option_map (fun t => clock w + Z.of_N t)
                                        (unplug d) |} in
      (Ret (List.length (conns w)), set_conns (conns w ++ [c]) w)
    else (Raise SerialException, w).

(** [com.close()] *)
Definition close (com : handle) : M unit :=
  fun w =>
    match nth_error (conns w) com with
    | Some c => (Ret tt, put_conn com (set_open false c) w)
    | None => (Ret tt, w)
    end.

(** [com.inWaiting()] *)
Definition inWaiting (com : handle) : M N :=
  fun w =>
    match usable com w with
    | Some c => (Ret (N.of_nat (List.length (c_rx c))), put_conn com c w)
    | None => (Raise SerialException, w)
    end.

(** [com.read(size)]: returns at once when [size] bytes are there, and
    otherwise waits for the read timeout and returns what has come. *)
Definition read (com : handle) (size : N) : M bytes :=
  fun w =>
    match usable com w with
    | None => (Raise SerialException, w)
    | Some c =>
        let n := N.to_nat size in
        if (size <=? N.of_nat (List.length (c_rx c)))%N then
          (Ret (firstn n (c_rx c)),
           put_conn com (set_line (c_ref c) (c_incoming c) (skipn n (c_rx c)) c) w)
        else
          match c_timeout c with
          | None => (Diverge, w)
          | Some ms =>
              let t := clock w + ms in
              let c' := settle t c in
              (Ret (firstn n (c_rx c')),
               set_clock t
                 (put_conn com
                    (set_line (c_ref c') (c_incoming c') (skipn n (c_rx c')) c')
                    w))
          end
    end.

(** [com.write(data)] *)
Definition write (com : handle) (data : bytes) : M N :=
  fun w =>
    match usable com w with
    | Some c =>
        (Ret (N.of_nat (List.length data)),
         put_conn com (set_tx (c_tx c ++ [data]) c) w)
    | None => (Raise SerialException, w)
    end.

(** [s.encode()] and [b.decode('utf-8')] *)
Definition str_encode (s : pystr) : M bytes :=
  match encode s with
  | Some b => ret b
  | None => raise UnicodeEncodeError
  end.

Definition bytes_decode (b : bytes) : M pystr :=
  match decode b with
  | Some s => ret s
  | None => raise UnicodeDecodeError
  end.

(** ** class SerialPorts *)

Record SerialPorts := { _ports : list pystr }.

(** [SerialPorts.__init__] *)
Definition SerialPorts_init : SerialPorts := {| _ports := [] |}.

(** ['COM%s' % (i + 1) for i in range(256)] *)
Definition com_names : list pystr :=
  map (fun i => lit "COM" ++ str_of_N (N.of_nat i + 1)) (seq 0 256).

(** The loop of lines 64-70: open and close each candidate, keep it unless
    [serial.SerialException] was raised. *)
Fixpoint probe_open (ports available : list pystr) : M (list pystr) :=
  match ports with
  | [] => ret available
  | port :: rest =>
      available' <-
        try_except
          (s <- Serial port 9600 None false ;;
           close s ;;
           ret (available ++ [port]))
          ClsSerialException
          (fun _ => ret available) ;;
      probe_open rest available'
  end.

Fixpoint log_each (name : string) (l : list pystr) : M unit :=
  match l with
  | [] => ret tt
  | x :: l' => log_at name INFO (Text x) ;; log_each name l'
  end.

(** Lines 62-76 of [scan_ports]. *)
Definition scan_candidates (self : SerialPorts) (ports : list pystr)
  : M SerialPorts :=
  log_at "scan_ports" INFO (Text (lit "Scanning ports...")) ;;
  available <- probe_open ports [] ;;
  log_at "scan_ports" INFO (Text (lit "Available ports:")) ;;
  log_each "scan_ports" available ;;
  ret {| _ports := available |}.

(** [scan_ports] returns nothing; the result here is the object after the
    call. *)
Definition scan_ports (self : SerialPorts) : M SerialPorts :=
  setLevel "scan_ports" CRITICAL ;;
  log_at "scan_ports" INFO (Text (lit "Starting...")) ;;
  fun w =>
    if str_startswith (lit "win") (platform (env w)) then
      scan_candidates self com_names w
    else if str_startswith (lit "linux") (platform (env w)) then
      scan_candidates self (glob_tty (env w)) w
    else
      (log_at "scan_ports" ERROR (Text (lit "Unsupported OS")) ;; ret self) w.

Definition get_ports (self : SerialPorts) : M (list pystr) :=
  self' <- scan_ports self ;;
  ret (_ports self').

(** ** request_bap and send *)

(** [while com.inWaiting(): acc += com.read(com.inWaiting()); time.sleep(0.01)],
    the loop of lines 85-87 and of lines 95-97. *)
Fixpoint drain (fuel : nat) (com : handle) (acc : bytes) : M bytes :=
  match fuel with
  | O => diverge
  | S f =>
      n <- inWaiting com ;;
      if (n =? 0)%N then ret acc
      else
        k <- inWaiting com ;;
        b <- read com k ;;
        time_sleep 10 ;;
        drain f com (acc ++ b)
  end.

Definition timeout_msg : pystr := lit "timeout before end of message.".

(** The [while True] loop of lines 94-102; [timeout = 2] seconds. *)
Fixpoint receive (fuel : nat) (com : handle) (t0 : Z) (r : bytes) : M bytes :=
  match fuel with
  | O => diverge
  | S f =>
      r' <- drain fuel com r ;;
      if bytes_in NLNL r' then ret r'
      else
        now <- time_time ;;
        if now - t0 >? 2000 then raise (Exception_ timeout_msg)
        else time_sleep 10 ;; receive f com t0 r'
  end.

(** Lines 83-93: flush what is pending, write the command line, note the
    time. *)
Definition start_request (fuel : nat) (com : handle) (s : pystr) : M Z :=
  _ <- drain fuel com [] ;;
  data <- str_encode (s ++ NL) ;;
  write com data ;;
  time_time.

Definition request_bap (fuel : nat) (com : handle) (cmd : pyval) : M pystr :=
  match cmd with
  | VStr s =>
      t0 <- start_request fuel com s ;;
      r <- receive fuel com t0 [] ;;
      bytes_decode r
  | _ => raise (TypeError (lit "cmd must be str"))
  end.

Definition send (fuel : nat) (com : handle) (cmd : pyval) : M pystr :=
  try_except (request_bap fuel com cmd) ClsException
    (fun e => log_at "ser_cmd" ERROR (OfExn e) ;; ret (lit "error")).

(** [s.strip()]: white space in the sense of [str.isspace] is removed at both
    ends. *)
Definition isspace (c : N) : bool :=
  ((9 <=? c) && (c <=? 13) || (28 <=? c) && (c <=? 32)
   || (c =? 133) || (c =? 160) || (c =? 5760)
   || (8192 <=? c) && (c <=? 8202)
   || (c =? 8232) || (c =? 8233) || (c =? 8239) || (c =? 8287)
   || (c =? 12288))%N.

Fixpoint lstrip (s : pystr) : pystr :=
  match s with
  | c :: s' => if isspace c then lstrip s' else s
  | [] => []
  end.

Definition strip (s : pystr) : pystr := rev (lstrip (rev (lstrip s))).

Definition print_resp (resp : pystr) : M unit :=
  try_except (print (strip resp)) ClsException
    (fun e => log_at "ser_cmd" ERROR (OfExn e)).

(** ** The script: choosing the port and running the commands *)

Record args := {
  a_command : option pystr;        (* [-c] *)
  a_port : option pystr;           (* [-p] *)
  a_verbosity : N                  (* [-v], counted *)
}.

(** [if x:] for an argument that is [None] or a string. *)
Definition given (x : option pystr) : option pystr :=
  match x with
  | Some (_ :: _) => x
  | _ => None
  end.

(** [l[i]], negative indices counting from the end. *)
Definition subscript {A} (l : list A) (i : Z) : M A :=
  let n := Z.of_nat (List.length l) in
  let j := if i <? 0 then i + n else i in
  if (j <? 0) || (n <=? j) then raise IndexError
  else
    match nth_error l (Z.to_nat j) with
    | Some x => ret x
    | None => raise IndexError
    end.

(** [int(s)] *)
Definition py_int (s : pystr) : M Z :=
  fun w =>
    match int_of_str (env w) s with
    | Some z => (Ret z, w)
    | None => (Raise ValueError, w)
    end.

(** [serial.Serial(port=port, baudrate=115200, timeout=0.01, rtscts=True)] *)
Definition open_unit (port : pystr) : M handle :=
  Serial port 115200 (Some 10) true.

(** Lines 149-156: scan until a port is found, the operator pressing ENTER
    between the attempts. *)
Fixpoint wait_for_ports (fuel : nat) : M (list pystr) :=
  match fuel with
  | O => diverge
  | S f =>
      ports <- get_ports SerialPorts_init ;;
      match ports with
      | [] =>
          log_at "ser_cmd" CRITICAL
            (Text (lit "Cant find usb port. Check connection cable and press ENTER...")) ;;
          input [] ;;
          wait_for_ports f
      | _ :: _ => ret ports
      end
  end.

(** Lines 159-160. *)
Fixpoint print_ports (n : N) (ports : list pystr) : M unit :=
  match ports with
  | [] => ret tt
  | p :: rest =>
      print (lit "Port " ++ str_of_N n ++ lit ": " ++ p) ;;
      print_ports (n + 1) rest
  end.

(** Lines 164-166. *)
Fixpoint log_ports (i : N) (ports : list pystr) : M unit :=
  match ports with
  | [] => ret tt
  | p :: rest =>
      log_at "ser_cmd" INFO (Text (str_of_N i ++ lit ": " ++ p)) ;;
      log_ports (i + 1) rest
  end.

Definition version : pystr := lit "version".
Definition error_text : pystr := lit "error".
Definition ok_marker : pystr := lit "200 OK".

(** Lines 168-171: one round of the loop below, up to the reply. *)
Definition attempt (fuel : nat) (ports : list pystr)
  : M (pystr * handle * pystr) :=
  port_num <- input (lit "Enter port number to use: ") ;;
  i <- py_int port_num ;;
  port <- subscript ports i ;;
  com <- open_unit port ;;
  resp <- send fuel com (VStr version) ;;
  ret (port, com, resp).

Definition try_another : pystr :=
  lit "The port seems not to be connected to the unit. Try another port.".

(** The [while True] loop of lines 167-177; it leaves [port] and [com]. *)
Fixpoint choose_port (fuel : nat) (ports : list pystr) : M (pystr * handle) :=
  match fuel with
  | O => diverge
  | S f =>
      a <- attempt fuel ports ;;
      let '(port, com, resp) := a in
      if str_in error_text resp then
        print try_another ;;
        choose_port f ports
      else if str_in ok_marker resp then ret (port, com)
      else ret (port, com)
  end.

(** Lines 161-182: [com] is [None] before; with several ports the operator
    chooses, with one it is taken as it is. *)
Definition select_port (fuel : nat) (ports : list pystr) : M handle :=
  pc <- (if (1 <? List.length ports)%nat then
           log_at "ser_cmd" INFO (Text (lit "Which port? Give number.")) ;;
           log_ports 0 ports ;;
           pc <- choose_port fuel ports ;;
           ret (fst pc, Some (snd pc))
         else
           port <- subscript ports 0 ;;
           ret (port, None)) ;;
  match snd pc with
  | Some com => ret com
  | None => open_unit (fst pc)
  end.

(** The [while True] loop of lines 192-197. *)
Fixpoint interact (fuel : nat) (com : handle) : M unit :=
  match fuel with
  | O => diverge
  | S f =>
      cmd <- input (lit "> ") ;;
      if str_eqb cmd (lit "q") then raise KeyboardInterrupt
      else
        resp <- send fuel com (VStr cmd) ;;
        print_resp resp ;;
        interact f com
  end.

Definition log_level_of (verbosity : N) : N :=
  if (2 <=? verbosity)%N then DEBUG
  else if (1 <=? verbosity)%N then INFO
  else CRITICAL.

(** The body of [if __name__ == '__main__':]. *)
Definition main (fuel : nat) (a : args) : M unit :=
  let log_level := log_level_of (a_verbosity a) in
  basicConfig log_level ;;
  log_at "ser_cmd" INFO
    (Text (lit "Setting logging level to " ++ str_of_N log_level)) ;;
  match given (a_command a) with
  | Some c => log_at "ser_cmd" INFO (Text (lit "cmd: " ++ c))
  | None => ret tt
  end ;;
  com <- match given (a_port a) with
         | Some port => open_unit port
         | None =>
             ports <- wait_for_ports fuel ;;
             print (lit "Available port(s):") ;;
             print_ports 0 ports ;;
             select_port fuel ports
         end ;;
  try_except
    match given (a_command a) with
    | Some c =>
        resp <- send fuel com (VStr c) ;;
        print_resp resp
    | None =>
        resp <- send fuel com (VStr version) ;;
        print_resp resp ;;
        print [] ;;
        print (lit "Enter command or (q)uit.") ;;
        interact fuel com
    end
    ClsKeyboardInterrupt
    (fun _ => print (lit "Finished")) ;;
  close com ;;
  raise (SystemExit 0).

(** ** Observations on a connection *)

(** The connection behind a handle. *)
Definition conn_at (com : handle) (w : world) : option conn :=
  nth_error (conns w) com.

(** No operation on the connection can succeed. *)
Definition link_down (com : handle) (w : world) : bool :=
  match conn_at com w with
  | Some c => down (clock w) c
  | None => true
  end.

(** What the receive buffer holds at time [t] when nothing is read. *)
Definition heard (t : Z) (c : conn) : bytes := c_rx (settle t c).

(** How many rounds of the polling loop a connection can still cause. *)
Definition backlog (c : conn) : nat :=
  List.length (c_incoming c) + match c_rx c with [] => 0 | _ => 1 end.

(** ** Relations between the world before and after *)

(** The computation [m] takes every world to one that is [R]-related to
    it, whatever its outcome. *)
Definition keeps (R : world -> world -> Prop) {A} (m : M A) : Prop :=
  forall w r w', m w = (r, w') -> R w w'.

(** The table of connections never shrinks. *)
Definition grown (w w' : world) : Prop :=
  (List.length (conns w) <= List.length (conns w'))%nat.

(** Every connection that is open stays in the table and stays open. *)
Definition still_open (w w' : world) : Prop :=
  forall h c, conn_at h w = Some c -> c_open c = true ->
              exists c', conn_at h w' = Some c' /\ c_open c' = true.

(** ** Concrete hosts and devices, for running the model *)

Module Scenario.

(** A plain decimal reading of [int]: digits only. *)
Fixpoint decimal_from (acc : Z) (s : pystr) : option Z :=
  match s with
  | [] => Some acc
  | c :: s' =>
      if ((48 <=? c) && (c <=? 57))%N
      then decimal_from (10 * acc + Z.of_N (c - 48)) s'
      else None
  end.

Definition decimal (s : pystr) : option Z :=
  match s with
  | [] => None
  | _ :: _ => decimal_from 0 s
  end.

Definition bytes_of (s : string) : bytes :=
  map byte_of_ascii (list_ascii_of_string s).

Definition nl2 : bytes := [x0a; x0a].

(** Nothing is ever sent. *)
Definition silent : device := {| script := []; unplug := None |}.

(** The unit: 20 ms after the open it sends a reply that ends with the
    success marker and the blank line.  (The script is a timeline, so the
    reply does not wait for the command; the open and the write are
    within the same 20 ms.) *)
Definition unit_reply : bytes :=
  bytes_of "cpufw 1.0 4798 dspfw 1.0" ++ [x0a] ++ bytes_of "200 OK" ++ nl2.

Definition the_unit : device :=
  {| script := [(20%N, unit_reply)]; unplug := None |}.

Definition ttyS0 : pystr := lit "/dev/ttyS0".
Definition ttyACM0 : pystr := lit "/dev/ttyACM0".
Definition ttyUSB9 : pystr := lit "/dev/ttyUSB9".

Definition make_host (plat : string) (nodes : list pystr)
  (openable : pystr -> bool) (dev : pystr -> device) : host :=
  {| platform := lit plat; glob_tty := nodes; can_open := openable;
     device_on := dev; int_of_str := decimal |}.

Definition boot (h : host) (keys : list pystr) : world :=
  {| env := h; clock := 0; conns := []; stdin := keys; stdout := [];
     root_level := WARNING; logger_levels := []; log := [] |}.

(** A Linux host with a silent port and the unit; a third node cannot be
    opened. *)
Definition two_ports : host :=
  make_host "linux" [ttyS0; ttyUSB9; ttyACM0]
    (fun p => negb (str_eqb p ttyUSB9))
    (fun p => if str_eqb p ttyACM0 then the_unit else silent).

(** A Linux host with one port, [d] attached to it. *)
Definition bench (d : device) : host :=
  make_host "linux" [ttyS0] (fun _ => true) (fun _ => d).

(** A Linux host whose only port has nothing attached. *)
Definition one_port : host := bench silent.

(** The world just after the port of a bench has been opened for
    commands; the connection has handle 0. *)
Definition opened (d : device) : world :=
  snd (open_unit ttyS0 (boot (bench d) [])).

(** The world once the command line [version] has been written, at the
    start of the read phase, and the connection as it is then. *)
Definition asked (d : device) : world :=
  snd (start_request 300 0%nat version (opened d)).

Definition line (d : device) : conn :=
  match conns (asked d) with
  | c :: _ => c
  | [] => {| c_port := []; c_baudrate := 0; c_timeout := None;
             c_rtscts := false; c_open := false; c_ref := 0;
             c_incoming := []; c_rx := []; c_tx := []; c_fault := None |}
  end.

(** A complete reply that comes 2005 ms after the open. *)
Definition late : device :=
  {| script := [(2005%N, bytes_of "ok" ++ nl2)]; unplug := None |}.

(** A unit that talks for two and a half seconds, a byte every 10 ms, and
    then ends its reply. *)
Definition steady : device :=
  {| script := repeat (10%N, [x78]) 250 ++ [(10%N, nl2)]; unplug := None |}.

(** A reply that ends properly and is not UTF-8. *)
Definition garbled : device :=
  {| script := [(20%N, [xff] ++ nl2)]; unplug := None |}.

(** A reply that holds neither the success marker nor the word error. *)
Definition stranger : device :=
  {| script := [(20%N, bytes_of "hello" ++ nl2)]; unplug := None |}.

(** The cable is pulled half a second after the open. *)
Definition pulled : device := {| script := []; unplug := Some 500%N |}.

Definition darwin : host :=
  make_host "darwin" [ttyS0] (fun _ => true) (fun _ => silent).

End Scenario.

(** The line that [request_bap] writes for the command [version]. *)
Definition version_line : bytes := Scenario.bytes_of "version" ++ [x0a].

(** ** What stays the same on every connection *)

(** Whatever [f] reads off a connection is the same before and after, for
    every connection of the table. *)
Definition same_on {B} (f : conn -> B) (w w' : world) : Prop :=
  forall h c, conn_at h w = Some c ->
              exists c', conn_at h w' = Some c' /\ f c' = f c.

(** The settings of a connection and whether it is open. *)
Definition setup (c : conn) : pystr * N * option Z * bool * bool :=
  (c_port c, c_baudrate c, c_timeout c, c_rtscts c, c_open c).

(** Keyboard and screen are as they were. *)
Definition same_terminal (w w' : world) : Prop :=
  stdin w' = stdin w /\ stdout w' = stdout w.

(** Nothing but the log has changed outside the connections. *)
Definition same_levels (w w' : world) : Prop :=
  env w' = env w /\ root_level w' = root_level w
  /\ logger_levels w' = logger_levels w.

(** The log has grown by records that were not emitted. *)
Definition logged_silently (w w' : world) : Prop :=
  exists new, log w' = log w ++ new
              /\ Forall (fun r => l_emitted r = false) new.

(** The connection of a bench just after the open. *)
Definition line_before (d : device) : conn :=
  {| c_port := lit "/dev/ttyS0"; c_baudrate := 115200; c_timeout := Some 10;
     c_rtscts := true; c_open := true; c_ref := 0; c_incoming := script d;
     c_rx := []; c_tx := [];
     c_fault := option_map (fun t => 0 + Z.of_N t) (unplug d) |}.

(** What a scan finds on a host: the candidates of the platform that
    open; on another platform, what the object held before. *)
Definition found (h : host) (old : list pystr) : list pystr :=
  if str_startswith (lit "win") (platform h) then
    filter (can_open h) com_names
  else if str_startswith (lit "linux") (platform h) then
    filter (can_open h) (glob_tty h)
  else old.

(** The logger of the scan has its own level, CRITICAL. *)
Definition muted (w : world) : Prop :=
  own_level "scan_ports" (logger_levels w) = Some CRITICAL.

(** The keyboard input is as it was. *)
Definition same_stdin (w w' : world) : Prop := stdin w' = stdin w.

(** The world after the prompt for the port number has been shown. *)
Definition prompted (w : world) : world :=
  set_stdout (stdout w ++ [lit "Enter port number to use: "]) w.

(** [i] as an index into a list of length [n], counting from the end when
    it is negative. *)
Definition index_of (i : Z) (n : nat) : nat :=
  Z.to_nat (if i <? 0 then i + Z.of_nat n else i).

(** A reading of [int] that knows the minus sign, and a host with it. *)
Definition signed_decimal (s : pystr) : option Z :=
  match s with
  | 45%N :: s' => option_map Z.opp (Scenario.decimal s')
  | _ => Scenario.decimal s
  end.

Definition two_ports_signed : host :=
  {| platform := platform Scenario.two_ports;
     glob_tty := glob_tty Scenario.two_ports;
     can_open := can_open Scenario.two_ports;
     device_on := device_on Scenario.two_ports;
     int_of_str := signed_decimal |}.

(** The connection that [Serial] makes in the world [w]. *)
Definition fresh_conn (port : pystr) (baudrate : N) (timeout : option Z)
  (rtscts : bool) (w : world) : conn :=
  {| c_port := port; c_baudrate := baudrate; c_timeout := timeout;
     c_rtscts := rtscts; c_open := true; c_ref := clock w;
     c_incoming := script (device_on (env w) port); c_rx := []; c_tx := [];
     c_fault := option_map (fun t => clock w + Z.of_N t)
                           (unplug (device_on (env w) port)) |}.

(** The settings of the connections that the script opens for commands. *)
Definition command_line_of (port : pystr) (c : conn) : Prop :=
  setup c = (port, 115200%N, Some 10, true, true).

(** ** The parts of the script *)

(** Lines 144-182 of the script: the connection for the commands. *)
Definition get_connection (fuel : nat) (a : args) : M handle :=
  match given (a_port a) with
  | Some port => open_unit port
  | None =>
      ports <- wait_for_ports fuel ;;
      print (lit "Available port(s):") ;;
      print_ports 0 ports ;;
      select_port fuel ports
  end.



(** Every exception that [m] raises satisfies [P]. *)
Definition raises_only (P : exn -> Prop) {A} (m : M A) : Prop :=
  forall w e w', m w = (Raise e, w') -> P e.

(** The exceptions with which the choice of the port can fail. *)
Definition selection_failure (e : exn) : Prop :=
  e = EOFError \/ e = ValueError \/ e = IndexError \/ e = SerialException.


(** * Properties *)

(** ** The monad *)

Lemma bind_inv {A B} (m : M A) (k : A -> M B) w r w' :
  bind m k w = (r, w') ->
  (exists a w1, m w = (Ret a, w1) /\ k a w1 = (r, w'))
  \/ (exists e, m w = (Raise e, w') /\ r = Raise e)
  \/ (m w = (Diverge, w') /\ r = Diverge).
Proof.
  unfold bind. destruct (m w) as [[a | e |] w1]; intros H.
  - left. eauto.
  - right. left. inversion H; subst. eauto.
  - right. right. inversion H; subst. auto.
Qed.

Lemma bind_ret {A B} (m : M A) (k : A -> M B) w a w1 :
  m w = (Ret a, w1) -> bind m k w = k a w1.
Proof. unfold bind. intros ->. reflexivity. Qed.

Lemma bind_raise {A B} (m : M A) (k : A -> M B) w e w1 :
  m w = (Raise e, w1) -> bind m k w = (Raise e, w1).
Proof. unfold bind. intros ->. reflexivity. Qed.

(** ** The connection table *)

Lemma replace_nth_same {A} (l : list A) n x y :
  nth_error l n = Some y -> nth_error (replace_nth n x l) n = Some x.
Proof.
  revert n. induction l as [| z l IH]; intros [| n] H; simpl in *;
    try discriminate; auto.
Qed.

Lemma replace_nth_other {A} (l : list A) n m x :
  n <> m -> nth_error (replace_nth n x l) m = nth_error l m.
Proof.
  revert n m. induction l as [| z l IH]; intros [| n] [| m] H; simpl;
    auto; congruence.
Qed.

Lemma replace_nth_length {A} (l : list A) n x :
  List.length (replace_nth n x l) = List.length l.
Proof.
  revert n. induction l as [| z l IH]; intros [| n]; simpl; auto.
Qed.

Lemma conn_at_put com c w y :
  conn_at com w = Some y -> conn_at com (put_conn com c w) = Some c.
Proof. unfold conn_at, put_conn. simpl. apply replace_nth_same. Qed.

Lemma conn_at_put_other com h c w :
  com <> h -> conn_at h (put_conn com c w) = conn_at h w.
Proof. unfold conn_at, put_conn. simpl. apply replace_nth_other. Qed.

(** ** Arrival of bytes *)

Lemma arrive_rx t ref inc rx :
  snd (arrive t ref inc rx) = rx ++ snd (arrive t ref inc []).
Proof.
  revert ref rx. induction inc as [| [d bs] inc IH]; intros ref rx; simpl.
  - now rewrite app_nil_r.
  - destruct (ref + Z.of_N d <=? t); simpl.
    + rewrite IH. rewrite (IH _ ([] ++ bs)). simpl. now rewrite app_assoc.
    + now rewrite app_nil_r.
Qed.

Lemma arrive_again t t' ref inc rx :
  t <= t' ->
  let '(ref1, inc1, rx1) := arrive t ref inc rx in
  arrive t' ref1 inc1 rx1 = arrive t' ref inc rx.
Proof.
  intros Ht. revert ref rx.
  induction inc as [| [d bs] inc IH]; intros ref rx; simpl.
  - reflexivity.
  - destruct (ref + Z.of_N d <=? t) eqn:E.
    + specialize (IH (ref + Z.of_N d) (rx ++ bs)).
      destruct (arrive t (ref + Z.of_N d) inc (rx ++ bs)) as [[r1 i1] x1].
      rewrite IH.
      assert (E' : (ref + Z.of_N d <=? t') = true) by
        (apply Z.leb_le; apply Z.leb_le in E; lia).
      now rewrite E'.
    + simpl. reflexivity.
Qed.

Lemma settle_again t t' c :
  t <= t' -> settle t' (settle t c) = settle t' c.
Proof.
  intros Ht. unfold settle.
  pose proof (arrive_again t t' (c_ref c) (c_incoming c) (c_rx c) Ht) as H.
  destruct (arrive t (c_ref c) (c_incoming c) (c_rx c)) as [[r1 i1] x1].
  simpl. rewrite H.
  destruct (arrive t' (c_ref c) (c_incoming c) (c_rx c)) as [[r2 i2] x2].
  reflexivity.
Qed.

Lemma heard_settle t t' c :
  t <= t' -> heard t' (settle t c) = heard t' c.
Proof. intros H. unfold heard. now rewrite settle_again. Qed.

Lemma heard_set_rx t c rx :
  heard t (set_line (c_ref c) (c_incoming c) rx c)
  = rx ++ snd (arrive t (c_ref c) (c_incoming c) []).
Proof.
  unfold heard, settle. simpl.
  pose proof (arrive_rx t (c_ref c) (c_incoming c) rx) as H.
  destruct (arrive t (c_ref c) (c_incoming c) rx) as [[r1 i1] x1].
  simpl in *. exact H.
Qed.

Lemma heard_split t c :
  heard t c = c_rx c ++ snd (arrive t (c_ref c) (c_incoming c) []).
Proof.
  unfold heard, settle.
  pose proof (arrive_rx t (c_ref c) (c_incoming c) (c_rx c)) as H.
  destruct (arrive t (c_ref c) (c_incoming c) (c_rx c)) as [[r1 i1] x1].
  simpl in *. exact H.
Qed.

(** What has been heard by [t] is a prefix of what has been heard later. *)
Lemma heard_mono t t' c :
  t <= t' -> exists more, heard t' c = heard t c ++ more.
Proof.
  intros H. rewrite <- (heard_settle t t' c H).
  rewrite (heard_split t' (settle t c)). eexists. reflexivity.
Qed.

(** ** Substrings *)

Section Substrings.
Context {A : Type} (eqb : A -> A -> bool).

Lemma startswith_app (p s x : list A) :
  startswith eqb p s = true -> startswith eqb p (s ++ x) = true.
Proof.
  revert s. induction p as [| a p IH]; intros [| b s]; simpl; auto;
    try discriminate.
  intros H. apply andb_true_iff in H as [H1 H2].
  rewrite H1. simpl. auto.
Qed.

Lemma contains_app_r (p s x : list A) :
  contains eqb p s = true -> contains eqb p (s ++ x) = true.
Proof.
  induction s as [| b s IH]; simpl; intros H.
  - rewrite orb_false_r in H. destruct p; try discriminate.
    destruct x; reflexivity.
  - apply orb_true_iff in H as [H | H].
    + change (b :: s ++ x) with ((b :: s) ++ x).
      rewrite (startswith_app _ _ _ H). reflexivity.
    + rewrite (IH H). apply orb_true_r.
Qed.

Lemma contains_app_l (p s x : list A) :
  contains eqb p s = true -> contains eqb p (x ++ s) = true.
Proof.
  intros H. induction x as [| b x IH]; simpl; auto.
  rewrite IH. apply orb_true_r.
Qed.
End Substrings.

(** ** The serial operations *)

Lemma down_settle t t' c : down t (settle t' c) = down t c.
Proof.
  unfold settle.
  destruct (arrive t' (c_ref c) (c_incoming c) (c_rx c)) as [[r1 i1] x1].
  reflexivity.
Qed.

Lemma settle_fields t c :
  c_tx (settle t c) = c_tx c /\ c_fault (settle t c) = c_fault c
  /\ c_open (settle t c) = c_open c /\ c_port (settle t c) = c_port c
  /\ c_timeout (settle t c) = c_timeout c.
Proof.
  unfold settle.
  destruct (arrive t (c_ref c) (c_incoming c) (c_rx c)) as [[r1 i1] x1].
  simpl. auto.
Qed.

Lemma arrive_incoming t ref inc rx :
  (List.length (snd (fst (arrive t ref inc rx))) <= List.length inc)%nat.
Proof.
  revert ref rx. induction inc as [| [d bs] inc IH]; intros ref rx; simpl.
  - auto.
  - destruct (ref + Z.of_N d <=? t); simpl.
    + specialize (IH (ref + Z.of_N d) (rx ++ bs)). lia.
    + lia.
Qed.

(** When new bytes come in, fewer chunks remain on their way. *)
Lemma arrive_progress t ref inc :
  snd (arrive t ref inc []) <> [] ->
  (List.length (snd (fst (arrive t ref inc []))) < List.length inc)%nat.
Proof.
  destruct inc as [| [d bs] inc]; simpl.
  - congruence.
  - destruct (ref + Z.of_N d <=? t); simpl.
    + intros _. pose proof (arrive_incoming t (ref + Z.of_N d) inc bs).
      lia.
    + congruence.
Qed.

Lemma usable_ok com w c :
  conn_at com w = Some c -> down (clock w) c = false ->
  usable com w = Some (settle (clock w) c).
Proof. unfold usable, conn_at. intros -> ->. reflexivity. Qed.

Lemma usable_down com w : link_down com w = true -> usable com w = None.
Proof.
  unfold usable, link_down, conn_at.
  destruct (nth_error (conns w) com); auto. now intros ->.
Qed.

Lemma inWaiting_ok com w c :
  conn_at com w = Some c -> down (clock w) c = false ->
  inWaiting com w
  = (Ret (N.of_nat (List.length (c_rx (settle (clock w) c)))),
     put_conn com (settle (clock w) c) w).
Proof. intros H1 H2. unfold inWaiting. now rewrite (usable_ok _ _ _ H1 H2). Qed.

Lemma inWaiting_down com w :
  link_down com w = true -> inWaiting com w = (Raise SerialException, w).
Proof. intros H. unfold inWaiting. now rewrite (usable_down _ _ H). Qed.

Lemma write_ok com data w c :
  conn_at com w = Some c -> down (clock w) c = false ->
  write com data w
  = (Ret (N.of_nat (List.length data)),
     put_conn com
       (set_tx (c_tx (settle (clock w) c) ++ [data]) (settle (clock w) c)) w).
Proof. intros H1 H2. unfold write. now rewrite (usable_ok _ _ _ H1 H2). Qed.

Lemma write_down com data w :
  link_down com w = true -> write com data w = (Raise SerialException, w).
Proof. intros H. unfold write. now rewrite (usable_down _ _ H). Qed.

(** Reading exactly what [inWaiting] has just counted takes everything and
    does not wait. *)
Lemma read_all com w c :
  conn_at com w = Some c -> down (clock w) c = false ->
  settle (clock w) c = c ->
  read com (N.of_nat (List.length (c_rx c))) w
  = (Ret (c_rx c), put_conn com (set_line (c_ref c) (c_incoming c) [] c) w).
Proof.
  intros H1 H2 H3. unfold read. rewrite (usable_ok _ _ _ H1 H2), H3.
  rewrite N.leb_refl, Nat2N.id, firstn_all, skipn_all. reflexivity.
Qed.

Lemma settle_idem t c : settle t (settle t c) = settle t c.
Proof. apply settle_again. lia. Qed.

Lemma length_zero_nil {A} (l : list A) :
  (N.of_nat (List.length l) =? 0)%N = true -> l = [].
Proof. destruct l; auto. intros H. apply N.eqb_eq in H. simpl List.length in H. lia. Qed.

(** The polling loop, started on a connection [c]: when it returns, the
    buffer is empty and everything heard so far has been collected; when it
    raises, the link is down. *)
Lemma drain_spec fuel com : forall acc w c,
  conn_at com w = Some c ->
  match drain fuel com acc w with
  | (Ret r, w') =>
      exists c', conn_at com w' = Some c' /\ down (clock w') c' = false /\
        settle (clock w') c' = c' /\ c_rx c' = [] /\ clock w <= clock w' /\
        c_tx c' = c_tx c /\ c_fault c' = c_fault c /\ c_open c' = c_open c /\
        (List.length (c_incoming c') <= List.length (c_incoming c))%nat /\
        (forall T, clock w' <= T -> r ++ heard T c' = acc ++ heard T c)
  | (Raise e, w') => e = SerialException /\ link_down com w' = true
  | (Diverge, _) => True
  end.
Proof.
  induction fuel as [| f IH]; intros acc w c Hc; simpl; auto.
  destruct (down (clock w) c) eqn:D.
  - rewrite (bind_raise _ _ _ _ _ (inWaiting_down com w ltac:(unfold link_down; now rewrite Hc))).
    split; auto. unfold link_down. now rewrite Hc.
  - rewrite (bind_ret _ _ _ _ _ (inWaiting_ok com w c Hc D)).
    set (c1 := settle (clock w) c).
    assert (S1 : settle (clock w) c1 = c1) by apply settle_idem.
    assert (D1 : down (clock w) c1 = false) by (unfold c1; now rewrite down_settle).
    destruct (settle_fields (clock w) c) as (F1 & F2 & F3 & _).
    fold c1 in F1, F2, F3.
    destruct (N.of_nat (List.length (c_rx c1)) =? 0)%N eqn:E.
    + unfold ret. exists c1. split; [eapply conn_at_put; eauto|].
      simpl. repeat split; auto; try lia.
      * now apply length_zero_nil.
      * unfold c1, settle.
        pose proof (arrive_incoming (clock w) (c_ref c) (c_incoming c) (c_rx c)).
        destruct (arrive (clock w) (c_ref c) (c_incoming c) (c_rx c)) as [[r1 i1] x1].
        simpl in *. lia.
      * intros T HT. unfold c1. now rewrite heard_settle.
    + set (w1 := put_conn com c1 w).
      assert (Hc1 : conn_at com w1 = Some c1) by (eapply conn_at_put; eauto).
      assert (K1 : inWaiting com w1 = (Ret (N.of_nat (List.length (c_rx c1))), put_conn com c1 w1)).
      { rewrite (inWaiting_ok com w1 c1 Hc1 D1). simpl. now rewrite S1. }
      rewrite (bind_ret _ _ _ _ _ K1).
      set (w2 := put_conn com c1 w1).
      assert (Hc2 : conn_at com w2 = Some c1) by (eapply conn_at_put; eauto).
      rewrite (bind_ret _ _ _ _ _ (read_all com w2 c1 Hc2 D1 S1)).
      set (c2 := set_line (c_ref c1) (c_incoming c1) [] c1).
      set (w3 := put_conn com c2 w2).
      unfold time_sleep at 1. unfold bind at 1.
      set (w4 := set_clock (clock w3 + 10) w3).
      assert (Hc4 : conn_at com w4 = Some c2) by (unfold w4, w3; eapply conn_at_put; eauto).
      specialize (IH (acc ++ c_rx c1) w4 c2 Hc4).
      destruct (drain f com (acc ++ c_rx c1) w4) as [[r | e |] w']; auto.
      destruct IH as (c' & I1 & I2 & I3 & I4 & I5 & I6 & I7 & I8 & I9 & I10).
      exists c'. simpl in *. repeat split; auto; try lia; try congruence.
      * unfold c1 in I9 |- *. unfold settle in *.
        pose proof (arrive_incoming (clock w) (c_ref c) (c_incoming c) (c_rx c)).
        destruct (arrive (clock w) (c_ref c) (c_incoming c) (c_rx c)) as [[r1 i1] x1].
        simpl in *. lia.
      * intros T HT. rewrite (I10 T HT).
        unfold c2. rewrite heard_set_rx. simpl.
        rewrite <- app_assoc. f_equal.
        rewrite <- (heard_settle (clock w) T c) by lia. fold c1.
        now rewrite heard_split.
Qed.

Lemma drain_down f com acc w :
  link_down com w = true ->
  drain (S f) com acc w = (Raise SerialException, w).
Proof.
  intros L. cbn [drain].
  now rewrite (bind_raise _ _ _ _ _ (inWaiting_down com w L)).
Qed.

Lemma drain_raise fuel com acc w e w' :
  drain fuel com acc w = (Raise e, w') ->
  e = SerialException /\ link_down com w' = true.
Proof.
  intros H. destruct (conn_at com w) as [c |] eqn:Hc.
  - pose proof (drain_spec fuel com acc w c Hc) as S. now rewrite H in S.
  - destruct fuel as [| f]; [discriminate|].
    assert (L : link_down com w = true) by (unfold link_down; now rewrite Hc).
    rewrite (drain_down f com acc w L) in H.
    inversion H; subst. auto.
Qed.

(** The receiving loop, started with [r0] on a connection [c]: a returned
    buffer holds the marker and is all that was heard up to then; the
    time-out is raised only after more than 2000 ms, on a buffer without the
    marker. *)
Lemma receive_spec fuel com t0 : forall r0 w c,
  conn_at com w = Some c ->
  match receive fuel com t0 r0 w with
  | (Ret r, w') =>
      bytes_in NLNL r = true /\ r = r0 ++ heard (clock w') c /\
      clock w <= clock w' /\ link_down com w' = false /\
      exists c', conn_at com w' = Some c' /\ c_tx c' = c_tx c
  | (Raise e, w') =>
      (e = SerialException /\ link_down com w' = true)
      \/ (e = Exception_ timeout_msg /\ link_down com w' = false
          /\ 2000 < clock w' - t0 /\ clock w <= clock w'
          /\ bytes_in NLNL (r0 ++ heard (clock w') c) = false)
  | (Diverge, _) => True
  end.
Proof.
  induction fuel as [| f IH]; intros r0 w c Hc; [simpl; auto|].
  cbn [receive].
  pose proof (drain_spec (S f) com r0 w c Hc) as D.
  destruct (drain (S f) com r0 w) as [[r1 | e |] w1] eqn:E.
  - rewrite (bind_ret _ _ _ _ _ E).
    destruct D as (c1 & D1 & D2 & D3 & D4 & D5 & D6 & D7 & D8 & D9 & D10).
    assert (Hr1 : r1 = r0 ++ heard (clock w1) c).
    { rewrite <- (D10 (clock w1)) by lia. unfold heard. rewrite D3, D4.
      now rewrite app_nil_r. }
    assert (L1 : link_down com w1 = false) by (unfold link_down; now rewrite D1).
    destruct (bytes_in NLNL r1) eqn:B.
    + unfold ret. repeat split; auto. eauto.
    + unfold time_time at 1. unfold bind at 1.
      destruct (clock w1 - t0 >? 2000) eqn:T.
      * unfold raise. right. repeat split; auto.
        -- apply Z.gtb_lt in T. lia.
        -- now rewrite <- Hr1.
      * unfold time_sleep at 1. unfold bind at 1.
        set (w2 := set_clock (clock w1 + 10) w1).
        assert (Hc2 : conn_at com w2 = Some c1) by exact D1.
        specialize (IH r1 w2 c1 Hc2).
        assert (HH : forall u, clock w2 <= u -> r1 ++ heard u c1 = r0 ++ heard u c).
        { intros u Hu. apply D10. simpl in Hu. lia. }
        destruct (receive f com t0 r1 w2) as [[r | e |] w'] eqn:R; auto.
        -- destruct IH as (I1 & I2 & I3 & I4 & c' & I5 & I6).
           pose proof I3 as I3'. simpl in I3'. repeat split; auto; try lia.
           ++ rewrite I2. now apply HH.
           ++ exists c'. split; auto. congruence.
        -- destruct IH as [I | (I1 & I2 & I3 & I4 & I5)]; [left; auto|].
           right. pose proof I4 as I4'. simpl in I4'.
           repeat split; auto; try lia.
           rewrite <- HH by exact I4. exact I5.
  - rewrite (bind_raise _ _ _ _ _ E). left. exact D.
  - unfold bind. rewrite E. exact I.
Qed.


Lemma backlog_settle t c : (backlog (settle t c) <= backlog c)%nat.
Proof.
  unfold backlog, settle.
  pose proof (arrive_incoming t (c_ref c) (c_incoming c) (c_rx c)) as H1.
  pose proof (arrive_rx t (c_ref c) (c_incoming c) (c_rx c)) as H2.
  pose proof (arrive_incoming t (c_ref c) (c_incoming c) []) as H3.
  destruct (c_rx c) as [| b rx] eqn:R.
  - destruct (arrive t (c_ref c) (c_incoming c) []) as [[r1 i1] x1] eqn:E.
    simpl in *. destruct x1; [lia|].
    pose proof (arrive_progress t (c_ref c) (c_incoming c)) as P.
    rewrite E in P. simpl in P. specialize (P ltac:(discriminate)). lia.
  - destruct (arrive t (c_ref c) (c_incoming c) (b :: rx)) as [[r1 i1] x1].
    simpl in *. destruct x1; lia.
Qed.

Lemma drain_total fuel com : forall acc w c,
  conn_at com w = Some c -> c_open c = true -> c_fault c = None ->
  (backlog c + 1 <= fuel)%nat ->
  exists r w', drain fuel com acc w = (Ret r, w').
Proof.
  induction fuel as [| f IH]; intros acc w c Hc Ho Hf Hb; [lia|].
  cbn [drain].
  assert (D : down (clock w) c = false) by (unfold down; now rewrite Ho, Hf).
  rewrite (bind_ret _ _ _ _ _ (inWaiting_ok com w c Hc D)).
  set (c1 := settle (clock w) c).
  assert (S1 : settle (clock w) c1 = c1) by apply settle_idem.
  assert (D1 : down (clock w) c1 = false) by (unfold c1; now rewrite down_settle).
  destruct (settle_fields (clock w) c) as (F1 & F2 & F3 & _).
  fold c1 in F1, F2, F3.
  destruct (N.of_nat (List.length (c_rx c1)) =? 0)%N eqn:E.
  - unfold ret. eauto.
  - set (w1 := put_conn com c1 w).
    assert (Hc1 : conn_at com w1 = Some c1) by (eapply conn_at_put; eauto).
    assert (K1 : inWaiting com w1 = (Ret (N.of_nat (List.length (c_rx c1))), put_conn com c1 w1)).
    { rewrite (inWaiting_ok com w1 c1 Hc1 D1). simpl. now rewrite S1. }
    rewrite (bind_ret _ _ _ _ _ K1).
    set (w2 := put_conn com c1 w1).
    assert (Hc2 : conn_at com w2 = Some c1) by (eapply conn_at_put; eauto).
    rewrite (bind_ret _ _ _ _ _ (read_all com w2 c1 Hc2 D1 S1)).
    set (c2 := set_line (c_ref c1) (c_incoming c1) [] c1).
    set (w3 := put_conn com c2 w2).
    unfold time_sleep at 1. unfold bind at 1.
    set (w4 := set_clock (clock w3 + 10) w3).
    assert (Hc4 : conn_at com w4 = Some c2) by (unfold w4, w3; eapply conn_at_put; eauto).
    apply (IH _ w4 c2 Hc4); simpl; try congruence.
    pose proof (backlog_settle (clock w) c) as B. fold c1 in B.
    unfold backlog in B, Hb |- *. simpl.
    destruct (c_rx c1); [discriminate E|]. lia.
Qed.

Lemma receive_total fuel com t0 : forall r0 w c,
  conn_at com w = Some c -> c_open c = true -> c_fault c = None ->
  (backlog c + 1 <= fuel)%nat ->
  10 * Z.of_nat (backlog c) + 10 + (2010 - (clock w - t0)) <= 10 * Z.of_nat fuel ->
  match fst (receive fuel com t0 r0 w) with
  | Ret _ => True
  | Raise e => e = Exception_ timeout_msg
  | Diverge => False
  end.
Proof.
  induction fuel as [| f IH]; intros r0 w c Hc Ho Hf Hb Ht; [lia|].
  cbn [receive].
  destruct (drain_total (S f) com r0 w c Hc Ho Hf Hb) as (r1 & w1 & E).
  pose proof (drain_spec (S f) com r0 w c Hc) as D. rewrite E in D.
  destruct D as (c1 & D1 & D2 & D3 & D4 & D5 & D6 & D7 & D8 & D9 & D10).
  rewrite (bind_ret _ _ _ _ _ E).
  destruct (bytes_in NLNL r1) eqn:B.
  - exact I.
  - unfold bind at 1. unfold time_time. cbv beta iota.
    destruct (clock w1 - t0 >? 2000) eqn:T.
    + reflexivity.
    + unfold bind at 1. unfold time_sleep. cbv beta iota.
      set (w2 := set_clock (clock w1 + 10) w1).
      assert (Hc2 : conn_at com w2 = Some c1) by exact D1.
      assert (T' : clock w1 - t0 <= 2000).
      { destruct (Z.gtb_spec (clock w1 - t0) 2000); [discriminate | lia]. }
      assert (B1 : (backlog c1 <= backlog c)%nat).
      { unfold backlog. rewrite D4. lia. }
      apply (IH r1 w2 c1 Hc2); try congruence; unfold w2; cbn [clock set_clock]; lia.
Qed.

(** ** request_bap *)

Lemma start_request_spec fuel com s w c :
  conn_at com w = Some c ->
  match start_request fuel com s w with
  | (Ret t0, w1) =>
      t0 = clock w1 /\ link_down com w1 = false /\
      exists c1 data,
        conn_at com w1 = Some c1 /\ encode (s ++ NL) = Some data /\
        c_tx c1 = c_tx c ++ [data] /\ c_fault c1 = c_fault c /\
        c_open c1 = c_open c
  | (Raise e, w1) =>
      (e = SerialException /\ link_down com w1 = true)
      \/ (e = UnicodeEncodeError /\ link_down com w1 = false)
  | (Diverge, _) => True
  end.
Proof.
  intros Hc. unfold start_request.
  pose proof (drain_spec fuel com [] w c Hc) as D.
  destruct (drain fuel com [] w) as [[r1 | e |] w1] eqn:E.
  - rewrite (bind_ret _ _ _ _ _ E).
    destruct D as (c1 & D1 & D2 & D3 & D4 & D5 & D6 & D7 & D8 & D9 & D10).
    assert (L1 : link_down com w1 = false) by (unfold link_down; now rewrite D1).
    unfold str_encode. destruct (encode (s ++ NL)) as [data |] eqn:En.
    + rewrite (bind_ret _ _ _ _ _ (eq_refl : ret data w1 = (Ret data, w1))).
      rewrite (bind_ret _ _ _ _ _ (write_ok com data w1 c1 D1 D2)).
      rewrite D3. unfold time_time.
      set (c2 := set_tx (c_tx c1 ++ [data]) c1).
      assert (H2 : conn_at com (put_conn com c2 w1) = Some c2)
        by (eapply conn_at_put; eauto).
      split; [reflexivity|]. split.
      * unfold link_down. rewrite H2. exact D2.
      * exists c2, data. unfold c2. simpl. repeat split; auto; congruence.
    + rewrite (bind_raise _ _ _ _ _ (eq_refl : raise UnicodeEncodeError w1 = (Raise UnicodeEncodeError, w1))).
      right. auto.
  - rewrite (bind_raise _ _ _ _ _ E). left. exact D.
  - unfold bind. rewrite E. exact I.
Qed.

Lemma no_conn_down com w : conn_at com w = None -> link_down com w = true.
Proof. unfold link_down. now intros ->. Qed.

Lemma start_request_no_conn fuel com s w :
  conn_at com w = None ->
  start_request fuel com s w = (Raise SerialException, w)
  \/ start_request fuel com s w = (Diverge, w).
Proof.
  intros Hc. unfold start_request. destruct fuel as [| f].
  - right. reflexivity.
  - left. now rewrite (bind_raise _ _ _ _ _ (drain_down f com [] w (no_conn_down _ _ Hc))).
Qed.

(** The exceptions of [request_bap] on a string: the library's, exactly when
    the link is down; otherwise the time-out or a coding error. *)
Lemma request_bap_raise fuel com s w e w' :
  request_bap fuel com (VStr s) w = (Raise e, w') ->
  (e = SerialException /\ link_down com w' = true)
  \/ ((e = Exception_ timeout_msg \/ e = UnicodeEncodeError
       \/ e = UnicodeDecodeError) /\ link_down com w' = false).
Proof.
  cbn [request_bap]. intros H.
  destruct (conn_at com w) as [c |] eqn:Hc.
  - pose proof (start_request_spec fuel com s w c Hc) as S.
    destruct (start_request fuel com s w) as [[t0 | e0 |] w1] eqn:E.
    + rewrite (bind_ret _ _ _ _ _ E) in H.
      destruct S as (_ & _ & c1 & data & S1 & _).
      pose proof (receive_spec fuel com t0 [] w1 c1 S1) as R.
      destruct (receive fuel com t0 [] w1) as [[r | e1 |] w2] eqn:E2.
      * rewrite (bind_ret _ _ _ _ _ E2) in H.
        destruct R as (_ & _ & _ & R4 & _).
        unfold bytes_decode in H. destruct (decode r); inversion H; subst.
        right. auto.
      * rewrite (bind_raise _ _ _ _ _ E2) in H. inversion H; subst.
        destruct R as [R | (R1 & R2 & _)]; [left; auto | right; auto].
      * unfold bind in H. rewrite E2 in H. discriminate.
    + rewrite (bind_raise _ _ _ _ _ E) in H. inversion H; subst.
      destruct S as [S | [S1 S2]]; [left; auto | right; auto].
    + unfold bind in H. rewrite E in H. discriminate.
  - destruct (start_request_no_conn fuel com s w Hc) as [E | E].
    + rewrite (bind_raise _ _ _ _ _ E) in H. inversion H; subst.
      left. split; auto. now apply no_conn_down.
    + unfold bind in H. rewrite E in H. discriminate.
Qed.

Lemma request_bap_raises_exception fuel com cmd w e w' :
  request_bap fuel com cmd w = (Raise e, w') -> catches ClsException e = true.
Proof.
  destruct cmd; try (intros H; inversion H; subst; reflexivity).
  intros H. apply request_bap_raise in H.
  destruct H as [[-> _] | [[-> | [-> | ->]] _]]; reflexivity.
Qed.


Lemma request_bap_unfold fuel com s w t0 w1 :
  start_request fuel com s w = (Ret t0, w1) ->
  request_bap fuel com (VStr s) w
  = (r <- receive fuel com t0 [] ;; bytes_decode r) w1.
Proof. intros E. cbn [request_bap]. now rewrite (bind_ret _ _ _ _ _ E). Qed.

Lemma start_request_ret fuel com s w t0 w1 c1 :
  start_request fuel com s w = (Ret t0, w1) ->
  conn_at com w1 = Some c1 ->
  t0 = clock w1 /\ c_open c1 = true /\ down (clock w1) c1 = false.
Proof.
  intros E Hc1. destruct (conn_at com w) as [c |] eqn:Hc.
  - pose proof (start_request_spec fuel com s w c Hc) as S. rewrite E in S.
    destruct S as (S1 & S2 & _). split; auto.
    unfold link_down in S2. rewrite Hc1 in S2. split; auto.
    unfold down in S2. apply orb_false_iff in S2 as [S2 _].
    now apply negb_false_iff in S2.
  - destruct (start_request_no_conn fuel com s w Hc) as [F | F];
      rewrite F in E; discriminate.
Qed.

(** When the time-out is raised, what was heard within 2000 ms of [t0] does
    not hold the marker. *)
Lemma receive_timeout_late fuel com t0 w1 c1 w2 :
  conn_at com w1 = Some c1 -> t0 <= clock w1 ->
  receive fuel com t0 [] w1 = (Raise (Exception_ timeout_msg), w2) ->
  bytes_in NLNL (heard (t0 + 2000) c1) = false /\ 2000 < clock w2 - t0.
Proof.
  intros Hc Ht E.
  pose proof (receive_spec fuel com t0 [] w1 c1 Hc) as R. rewrite E in R.
  destruct R as [[R _] | (_ & _ & R3 & R4 & R5)]; [discriminate|].
  split; auto. simpl in R5.
  destruct (heard_mono (t0 + 2000) (clock w2) c1 ltac:(lia)) as [more Hm].
  rewrite Hm in R5.
  destruct (bytes_in NLNL (heard (t0 + 2000) c1)) eqn:B; auto.
  unfold bytes_in in *. rewrite (contains_app_r _ _ _ _ B) in R5. discriminate.
Qed.

(** C1, as the code has it.  Let the read phase start at [t0] on the
    connection [c1].  (a) The time-out is raised only after more than 2000 ms
    and only when what was heard within 2000 ms of [t0] lacks the marker; the
    exception carries no data.  (b) A returned text is the decoding of all
    that was heard up to the return, and that holds the marker.  (c) When
    what is heard within 2000 ms of [t0] holds the marker, the link stays up
    and the iteration bound is large enough, the loop ends with a buffer
    that holds the marker, and [request_bap] returns its decoding or raises
    [UnicodeDecodeError]. *)
Theorem request_bap_frame fuel com s w t0 w1 c1 :
  start_request fuel com s w = (Ret t0, w1) ->
  conn_at com w1 = Some c1 ->
  (forall w2,
      request_bap fuel com (VStr s) w = (Raise (Exception_ timeout_msg), w2) ->
      bytes_in NLNL (heard (t0 + 2000) c1) = false /\ 2000 < clock w2 - t0)
  /\ (forall text w2,
         request_bap fuel com (VStr s) w = (Ret text, w2) ->
         decode (heard (clock w2) c1) = Some text
         /\ bytes_in NLNL (heard (clock w2) c1) = true)
  /\ (bytes_in NLNL (heard (t0 + 2000) c1) = true ->
      c_fault c1 = None ->
      (List.length (c_incoming c1) + 203 <= fuel)%nat ->
      exists r w2,
        bytes_in NLNL r = true
        /\ receive fuel com t0 [] w1 = (Ret r, w2)
        /\ request_bap fuel com (VStr s) w = bytes_decode r w2).
Proof.
  intros E Hc1.
  destruct (start_request_ret fuel com s w t0 w1 c1 E Hc1) as (T0 & O1 & D1).
  rewrite (request_bap_unfold fuel com s w t0 w1 E).
  pose proof (receive_spec fuel com t0 [] w1 c1 Hc1) as R.
  split; [| split].
  - intros w2 H.
    destruct (receive fuel com t0 [] w1) as [[r | e1 |] w2'] eqn:E2.
    + rewrite (bind_ret _ _ _ _ _ E2) in H. unfold bytes_decode in H.
      destruct (decode r); discriminate.
    + rewrite (bind_raise _ _ _ _ _ E2) in H. inversion H; subst e1 w2'.
      apply (receive_timeout_late fuel com t0 w1 c1 w2 Hc1); auto. lia.
    + unfold bind in H. rewrite E2 in H. discriminate.
  - intros text w2 H.
    destruct (receive fuel com t0 [] w1) as [[r | e1 |] w2'] eqn:E2.
    + rewrite (bind_ret _ _ _ _ _ E2) in H. unfold bytes_decode in H.
      destruct (decode r) as [t |] eqn:Dc; inversion H; subst t w2'.
      destruct R as (R1 & R2 & _). simpl in R2. subst r. auto.
    + rewrite (bind_raise _ _ _ _ _ E2) in H. discriminate.
    + unfold bind in H. rewrite E2 in H. discriminate.
  - intros B Hf Hfuel.
    assert (Hb : (backlog c1 <= List.length (c_incoming c1) + 1)%nat).
    { unfold backlog. destruct (c_rx c1); lia. }
    pose proof (receive_total fuel com t0 [] w1 c1 Hc1 O1 Hf
                  ltac:(lia) ltac:(lia)) as Tot.
    destruct (receive fuel com t0 [] w1) as [[r | e1 |] w2] eqn:E2;
      simpl in Tot.
    + exists r, w2. destruct R as (R1 & _).
      split; auto. split; auto.
      now rewrite (bind_ret _ _ _ _ _ E2).
    + subst e1.
      destruct (receive_timeout_late fuel com t0 w1 c1 w2 Hc1 ltac:(lia) E2)
        as [B' _].
      rewrite B in B'. discriminate.
    + contradiction.
Qed.

Lemma request_bap_frame_witness :
  start_request 300 0%nat version (Scenario.opened Scenario.the_unit)
  = (Ret 0, Scenario.asked Scenario.the_unit)
  /\ conn_at 0%nat (Scenario.asked Scenario.the_unit)
     = Some (Scenario.line Scenario.the_unit)
  /\ exists r w2,
       bytes_in NLNL r = true
       /\ receive 300 0%nat 0 [] (Scenario.asked Scenario.the_unit) = (Ret r, w2)
       /\ request_bap 300 0%nat (VStr version) (Scenario.opened Scenario.the_unit)
          = bytes_decode r w2.
Proof.
  assert (H1 : start_request 300 0%nat version (Scenario.opened Scenario.the_unit)
               = (Ret 0, Scenario.asked Scenario.the_unit))
    by (vm_compute; reflexivity).
  assert (H2 : conn_at 0%nat (Scenario.asked Scenario.the_unit)
               = Some (Scenario.line Scenario.the_unit))
    by (vm_compute; reflexivity).
  split; [exact H1 | split; [exact H2 |]].
  refine (proj2 (proj2 (request_bap_frame 300 0%nat version _ 0 _ _ H1 H2)) _ _ _).
  - vm_compute; reflexivity.
  - vm_compute; reflexivity.
  - vm_compute. lia.
Defined.

(** C1 fails as stated.  The reply of the first device arrives 2005 ms
    after the read phase has started: nothing at all was heard within the
    2000 ms, the test at 2000 ms lets the loop go on, and the next round
    reads the reply and returns it.  The second device sends a byte every
    10 ms for 2500 ms and then the blank line: the inner loop reads on
    without looking at the time, and the reply is returned although what
    was heard within the 2000 ms does not hold the marker. *)
Lemma late_reply_is_returned :
  (start_request 300 0%nat version (Scenario.opened Scenario.late)
   = (Ret 0, Scenario.asked Scenario.late)
   /\ conn_at 0%nat (Scenario.asked Scenario.late)
      = Some (Scenario.line Scenario.late)
   /\ heard (0 + 2000) (Scenario.line Scenario.late) = []
   /\ bytes_in NLNL (heard (0 + 2000) (Scenario.line Scenario.late)) = false
   /\ fst (request_bap 300 0%nat (VStr version) (Scenario.opened Scenario.late))
      = Ret (lit "ok" ++ [10; 10]%N))
  /\ (start_request 600 0%nat version (Scenario.opened Scenario.steady)
      = (Ret 0, Scenario.asked Scenario.steady)
      /\ conn_at 0%nat (Scenario.asked Scenario.steady)
         = Some (Scenario.line Scenario.steady)
      /\ heard (0 + 2000) (Scenario.line Scenario.steady) = repeat x78 200
      /\ bytes_in NLNL (heard (0 + 2000) (Scenario.line Scenario.steady)) = false
      /\ fst (request_bap 600 0%nat (VStr version)
                (Scenario.opened Scenario.steady))
         = Ret (repeat 120%N 250 ++ [10; 10]%N)).
Proof. vm_compute. repeat split; reflexivity. Qed.



Lemma choose_port_step f ports w port com resp w1 :
  attempt (S f) ports w = (Ret (port, com, resp), w1) ->
  choose_port (S f) ports w
  = (if str_in error_text resp
     then print try_another ;; choose_port f ports
     else ret (port, com)) w1.
Proof.
  intros E. cbn [choose_port]. rewrite (bind_ret _ _ _ _ _ E).
  cbv beta iota. destruct (str_in error_text resp); auto.
  destruct (str_in ok_marker resp); reflexivity.
Qed.

(** C9.  Whatever exception [request_bap] raises, [send] logs it and returns
    the text [error]; the loop that chooses the port looks for that word
    only, so every reply that holds it, the device's own included, sends the
    loop into another round. *)
Theorem send_returns_error_text fuel com cmd w e w' :
  request_bap fuel com cmd w = (Raise e, w') ->
  send fuel com cmd w
  = (Ret error_text, snd (log_at "ser_cmd" ERROR (OfExn e) w'))
  /\ str_in error_text error_text = true
  /\ forall f ports w1 port h resp w2,
       attempt (S f) ports w1 = (Ret (port, h, resp), w2) ->
       str_in error_text resp = true ->
       choose_port (S f) ports w1
       = (print try_another ;; choose_port f ports) w2.
Proof.
  intros H. split; [| split].
  - unfold send, try_except. rewrite H.
    now rewrite (request_bap_raises_exception _ _ _ _ _ _ H).
  - reflexivity.
  - intros f ports w1 port h resp w2 A R.
    rewrite (choose_port_step _ _ _ _ _ _ _ A). now rewrite R.
Qed.

Lemma send_returns_error_text_witness :
  request_bap 300 0%nat (VStr version) (Scenario.opened Scenario.silent)
  = (Raise (Exception_ timeout_msg),
     snd (request_bap 300 0%nat (VStr version) (Scenario.opened Scenario.silent)))
  /\ fst (send 300 0%nat (VStr version) (Scenario.opened Scenario.silent))
     = Ret error_text.
Proof.
  assert (H1 : request_bap 300 0%nat (VStr version) (Scenario.opened Scenario.silent)
               = (Raise (Exception_ timeout_msg),
                  snd (request_bap 300 0%nat (VStr version)
                         (Scenario.opened Scenario.silent))))
    by (vm_compute; reflexivity).
  split; [exact H1 |].
  now rewrite (proj1 (send_returns_error_text _ _ _ _ _ _ H1)).
Defined.

(** C10.  When the receiving loop ends with a buffer that is not UTF-8,
    [request_bap] raises [UnicodeDecodeError] and returns nothing; the buffer
    holds the marker, and the exception is not the one of the time-out. *)
Theorem request_bap_undecodable fuel com s w t0 w1 r w2 :
  start_request fuel com s w = (Ret t0, w1) ->
  receive fuel com t0 [] w1 = (Ret r, w2) ->
  decode r = None ->
  request_bap fuel com (VStr s) w = (Raise UnicodeDecodeError, w2)
  /\ bytes_in NLNL r = true
  /\ UnicodeDecodeError <> Exception_ timeout_msg.
Proof.
  intros E R D. split; [| split].
  - rewrite (request_bap_unfold _ _ _ _ _ _ E), (bind_ret _ _ _ _ _ R).
    unfold bytes_decode. now rewrite D.
  - destruct (conn_at com w1) as [c1 |] eqn:Hc.
    + pose proof (receive_spec fuel com t0 [] w1 c1 Hc) as S.
      rewrite R in S. tauto.
    + destruct fuel as [| f]; [discriminate|]. cbn [receive] in R.
      rewrite (bind_raise _ _ _ _ _
                 (drain_down f com [] w1 (no_conn_down _ _ Hc))) in R.
      discriminate.
  - discriminate.
Qed.

Lemma request_bap_undecodable_witness :
  start_request 300 0%nat version (Scenario.opened Scenario.garbled)
  = (Ret 0, Scenario.asked Scenario.garbled)
  /\ fst (receive 300 0%nat 0 [] (Scenario.asked Scenario.garbled))
     = Ret [xff; x0a; x0a]
  /\ decode [xff; x0a; x0a] = None
  /\ fst (request_bap 300 0%nat (VStr version) (Scenario.opened Scenario.garbled))
     = Raise UnicodeDecodeError.
Proof.
  assert (H1 : start_request 300 0%nat version (Scenario.opened Scenario.garbled)
               = (Ret 0, Scenario.asked Scenario.garbled))
    by (vm_compute; reflexivity).
  assert (H2 : receive 300 0%nat 0 [] (Scenario.asked Scenario.garbled)
               = (Ret [xff; x0a; x0a],
                  snd (receive 300 0%nat 0 [] (Scenario.asked Scenario.garbled))))
    by (vm_compute; reflexivity).
  assert (H3 : decode [xff; x0a; x0a] = None) by reflexivity.
  split; [exact H1 | split; [now rewrite H2 | split; [exact H3 |]]].
  now rewrite (proj1 (request_bap_undecodable _ _ _ _ _ _ _ _ H1 H2 H3)).
Defined.


(** ** Port discovery *)

Lemma nth_error_last {A} (l : list A) x : nth_error (l ++ [x]) (List.length l) = Some x.
Proof. induction l; simpl; auto. Qed.

Lemma replace_nth_last {A} (l : list A) x y :
  replace_nth (List.length l) y (l ++ [x]) = l ++ [y].
Proof. induction l; simpl; auto. now rewrite IHl. Qed.

(** Opening a port that can be opened appends a fresh connection to the
    table and returns its index. *)
Lemma Serial_ok port baud tmo rts w :
  can_open (env w) port = true ->
  exists c,
    Serial port baud tmo rts w
    = (Ret (List.length (conns w)), set_conns (conns w ++ [c]) w)
    /\ c_tx c = [] /\ c_open c = true /\ c_port c = port.
Proof. intros H. unfold Serial. rewrite H. eexists. split; [reflexivity|]. auto. Qed.

Lemma Serial_refused port baud tmo rts w :
  can_open (env w) port = false ->
  Serial port baud tmo rts w = (Raise SerialException, w).
Proof. intros H. unfold Serial. now rewrite H. Qed.

(** The loop over the candidates keeps those that open, in their order, and
    leaves every connection it has made closed. *)
Lemma probe_open_spec ports : forall available w,
  exists w' extra,
    probe_open ports available w
    = (Ret (available ++ filter (can_open (env w)) ports), w')
    /\ env w' = env w /\ log w' = log w /\ stdout w' = stdout w
    /\ logger_levels w' = logger_levels w /\ root_level w' = root_level w
    /\ conns w' = conns w ++ extra
    /\ Forall (fun c => c_open c = false) extra
    /\ map c_port extra = filter (can_open (env w)) ports.
Proof.
  induction ports as [| port rest IH]; intros available w.
  - exists w, []. simpl. unfold ret. rewrite !app_nil_r. repeat split; auto.
  - cbn [probe_open filter].
    destruct (can_open (env w) port) eqn:O.
    + destruct (Serial_ok port 9600 None false w O) as (c & S1 & S2 & S3 & S4).
      set (w1 := set_conns (conns w ++ [c]) w) in *.
      assert (C1 : close (List.length (conns w)) w1
                   = (Ret tt, set_conns (conns w ++ [set_open false c]) w)).
      { unfold close, w1. simpl. rewrite nth_error_last.
        unfold put_conn. simpl. now rewrite replace_nth_last. }
      set (w2 := set_conns (conns w ++ [set_open false c]) w) in *.
      assert (T : try_except
                    (s <- Serial port 9600 None false ;;
                     close s ;; ret (available ++ [port]))
                    ClsSerialException (fun _ => ret available) w
                  = (Ret (available ++ [port]), w2)).
      { unfold try_except. rewrite (bind_ret _ _ _ _ _ S1).
        rewrite (bind_ret _ _ _ _ _ C1). reflexivity. }
      rewrite (bind_ret _ _ _ _ _ T).
      destruct (IH (available ++ [port]) w2)
        as (w' & extra & I1 & I2 & I3 & I4 & I5 & I6 & I7 & I8 & I9).
      exists w', (set_open false c :: extra).
      simpl in *. rewrite I1, <- app_assoc. simpl.
      repeat split; auto.
      * rewrite I7, <- app_assoc. reflexivity.
      * rewrite I9, S4. reflexivity.
    + assert (T : try_except
                    (s <- Serial port 9600 None false ;;
                     close s ;; ret (available ++ [port]))
                    ClsSerialException (fun _ => ret available) w
                  = (Ret available, w)).
      { unfold try_except.
        rewrite (bind_raise _ _ _ _ _ (Serial_refused port 9600 None false w O)).
        reflexivity. }
      rewrite (bind_ret _ _ _ _ _ T). apply IH.
Qed.

Lemma log_each_frame name l : forall w,
  exists w', log_each name l w = (Ret tt, w')
             /\ env w' = env w /\ conns w' = conns w /\ stdout w' = stdout w.
Proof.
  induction l as [| x l IH]; intros w; simpl.
  - exists w. auto.
  - unfold bind at 1, log_at at 1.
    destruct (IH (set_log (log w ++ [{| l_logger := name; l_level := INFO;
                                        l_msg := Text x;
                                        l_emitted := (effective_level name w <=? INFO)%N |}]) w))
      as (w' & I1 & I2 & I3 & I4).
    exists w'. auto.
Qed.

Lemma log_at_eq name level msg w :
  log_at name level msg w
  = (Ret tt,
     set_log (log w ++ [{| l_logger := name; l_level := level; l_msg := msg;
                           l_emitted := (effective_level name w <=? level)%N |}])
       w).
Proof. reflexivity. Qed.

Lemma scan_candidates_spec self ports w :
  exists w' extra,
    scan_candidates self ports w
    = (Ret {| _ports := filter (can_open (env w)) ports |}, w')
    /\ conns w' = conns w ++ extra
    /\ Forall (fun c => c_open c = false) extra
    /\ map c_port extra = filter (can_open (env w)) ports
    /\ stdout w' = stdout w.
Proof.
  unfold scan_candidates.
  rewrite (bind_ret _ _ _ _ _ (log_at_eq _ _ _ w)).
  match goal with |- context [bind (probe_open _ _) _ ?w0] =>
    destruct (probe_open_spec ports [] w0)
      as (w1 & extra & I1 & I2 & I3 & I4 & I5 & I6 & I7 & I8 & I9)
  end.
  simpl in I1, I2, I7, I9, I4.
  rewrite (bind_ret _ _ _ _ _ I1).
  rewrite (bind_ret _ _ _ _ _ (log_at_eq _ _ _ w1)).
  match goal with |- context [bind (log_each _ ?l) _ ?w0] =>
    destruct (log_each_frame "scan_ports" l w0) as (w2 & J1 & J2 & J3 & J4)
  end.
  rewrite (bind_ret _ _ _ _ _ J1).
  exists w2, extra. unfold ret. simpl in *.
  repeat split; auto; congruence.
Qed.



(** C8.  [get_ports] returns exactly the candidates of the platform that
    open, in their order: a candidate whose open raises
    [serial.SerialException] is left out and the scan goes on with the
    next.  Every connection the scan has made is closed again. *)
Theorem get_ports_keeps_what_opens self w ports :
  (str_startswith (lit "win") (platform (env w)) = true /\ ports = com_names)
  \/ (str_startswith (lit "win") (platform (env w)) = false
      /\ str_startswith (lit "linux") (platform (env w)) = true
      /\ ports = glob_tty (env w)) ->
  exists w' made,
    get_ports self w = (Ret (filter (can_open (env w)) ports), w')
    /\ conns w' = conns w ++ made
    /\ Forall (fun c => c_open c = false) made
    /\ map c_port made = filter (can_open (env w)) ports.
Proof.
  intros H. unfold get_ports, scan_ports.
  unfold bind at 2, setLevel at 1. unfold bind at 2, log_at at 1.
  match goal with |- context [bind ?m _ w] => set (scan := m) end.
  assert (E : exists w0, env w0 = env w /\ conns w0 = conns w
                         /\ scan w = scan_candidates self ports w0).
  { eexists. split; [| split]; [| | unfold scan].
    3: { destruct H as [[W ->] | (W & L & ->)];
           cbn [env set_log set_logger_levels]; rewrite W; try rewrite L;
           reflexivity. }
    all: reflexivity. }
  destruct E as (w0 & E1 & E2 & E3).
  destruct (scan_candidates_spec self ports w0) as (w' & made & S1 & S2 & S3 & S4 & _).
  exists w', made. unfold bind. rewrite E3, S1. unfold ret. simpl.
  rewrite <- E1, <- E2. auto.
Qed.

Lemma get_ports_keeps_what_opens_witness :
  (str_startswith (lit "win") (platform Scenario.two_ports) = false
   /\ str_startswith (lit "linux") (platform Scenario.two_ports) = true)
  /\ filter (can_open Scenario.two_ports) (glob_tty Scenario.two_ports)
     = [Scenario.ttyS0; Scenario.ttyACM0]
  /\ fst (get_ports SerialPorts_init (Scenario.boot Scenario.two_ports []))
     = Ret [Scenario.ttyS0; Scenario.ttyACM0].
Proof.
  split; [split; reflexivity | split; [reflexivity |]].
  destruct (get_ports_keeps_what_opens SerialPorts_init
              (Scenario.boot Scenario.two_ports []) (glob_tty Scenario.two_ports)
              (or_intror (conj eq_refl (conj eq_refl eq_refl))))
    as (w' & made & H1 & _).
  rewrite H1. reflexivity.
Defined.

(** ** Choosing the port *)

(** A reply of [request_bap] means that the command line has been written,
    once, after whatever had been written before. *)
Lemma request_bap_ret_tx fuel com s w c text w' :
  conn_at com w = Some c ->
  request_bap fuel com (VStr s) w = (Ret text, w') ->
  exists c' data,
    conn_at com w' = Some c' /\ encode (s ++ NL) = Some data
    /\ c_tx c' = c_tx c ++ [data].
Proof.
  intros Hc H. cbn [request_bap] in H.
  pose proof (start_request_spec fuel com s w c Hc) as S.
  destruct (start_request fuel com s w) as [[t0 | e0 |] w1] eqn:E.
  - rewrite (bind_ret _ _ _ _ _ E) in H.
    destruct S as (_ & _ & c1 & data & S1 & S2 & S3 & _).
    pose proof (receive_spec fuel com t0 [] w1 c1 S1) as R.
    destruct (receive fuel com t0 [] w1) as [[r | e1 |] w2] eqn:E2.
    + rewrite (bind_ret _ _ _ _ _ E2) in H.
      destruct R as (_ & _ & _ & _ & c2 & R5 & R6).
      unfold bytes_decode in H. destruct (decode r); inversion H; subst.
      exists c2, data. repeat split; auto. congruence.
    + rewrite (bind_raise _ _ _ _ _ E2) in H. discriminate.
    + unfold bind in H. rewrite E2 in H. discriminate.
  - rewrite (bind_raise _ _ _ _ _ E) in H. discriminate.
  - unfold bind in H. rewrite E in H. discriminate.
Qed.

(** What [send] returns is the reply of [request_bap] or the text [error]. *)
Lemma send_ret fuel com cmd w resp w' :
  send fuel com cmd w = (Ret resp, w') ->
  request_bap fuel com cmd w = (Ret resp, w') \/ resp = error_text.
Proof.
  unfold send, try_except.
  destruct (request_bap fuel com cmd w) as [[t | e |] w1]; intros H.
  - left. exact H.
  - destruct (catches ClsException e); [| discriminate].
    right. unfold bind, log_at, ret in H. inversion H. reflexivity.
  - discriminate.
Qed.

Lemma attempt_tx fuel ports w port com resp w1 :
  attempt fuel ports w = (Ret (port, com, resp), w1) ->
  str_in error_text resp = false ->
  exists c, conn_at com w1 = Some c /\ c_tx c = [version_line].
Proof.
  unfold attempt. intros H NE.
  apply bind_inv in H as [(port_num & wa & _ & H) | [(e & _ & ?) | [_ ?]]];
    try discriminate.
  apply bind_inv in H as [(i & wb & _ & H) | [(e & _ & ?) | [_ ?]]];
    try discriminate.
  apply bind_inv in H as [(p & wc & _ & H) | [(e & _ & ?) | [_ ?]]];
    try discriminate.
  apply bind_inv in H as [(h & wd & O & H) | [(e & _ & ?) | [_ ?]]];
    try discriminate.
  apply bind_inv in H as [(rs & we & S & H) | [(e & _ & ?) | [_ ?]]];
    try discriminate.
  unfold ret in H. inversion H; subst p h rs we. clear H.
  unfold open_unit, Serial in O.
  destruct (can_open (env wc) port); [| discriminate].
  inversion O; subst com wd. clear O.
  match type of S with send _ _ _ (set_conns (_ ++ [?x]) _) = _ =>
    set (c0 := x) in * end.
  assert (Hc : conn_at (List.length (conns wc)) (set_conns (conns wc ++ [c0]) wc)
               = Some c0) by apply nth_error_last.
  apply send_ret in S as [S | S].
  - destruct (request_bap_ret_tx _ _ _ _ _ _ _ Hc S) as (c' & data & T1 & T2 & T3).
    exists c'. split; auto. rewrite T3. simpl.
    vm_compute in T2. inversion T2. reflexivity.
  - subst resp. discriminate.
Qed.

Lemma choose_port_tx fuel ports : forall w port com w',
  choose_port fuel ports w = (Ret (port, com), w') ->
  exists c, conn_at com w' = Some c /\ c_tx c = [version_line].
Proof.
  induction fuel as [| f IH]; intros w port com w' H; [discriminate|].
  cbn [choose_port] in H.
  apply bind_inv in H as [([[p h] resp] & w1 & A & H) | [(e & _ & ?) | [_ ?]]];
    try discriminate.
  destruct (str_in error_text resp) eqn:NE.
  - apply bind_inv in H as [(u & w2 & _ & H) | [(e & _ & ?) | [_ ?]]];
      try discriminate.
    eapply IH; eauto.
  - assert (H' : (Ret (p, h), w1) = (Ret (port, com), w'))
      by (destruct (str_in ok_marker resp); exact H).
    inversion H'; subst. eapply attempt_tx; eauto.
Qed.

Lemma log_ports_frame ports : forall i w,
  exists w', log_ports i ports w = (Ret tt, w').
Proof.
  induction ports as [| p rest IH]; intros i w; simpl.
  - exists w. reflexivity.
  - rewrite (bind_ret _ _ _ _ _ (log_at_eq _ _ _ w)). apply IH.
Qed.


(** ** What the operations leave as it is

    A relation between the world before and the world after that is
    reflexive and transitive, and that the elementary operations respect, is
    respected by the loops built from them. *)

Section Frame.
Variable R : world -> world -> Prop.
Hypothesis R_refl : forall w, R w w.
Hypothesis R_trans : forall a b c, R a b -> R b c -> R a c.

Lemma keeps_ret {A} (a : A) : keeps R (ret a).
Proof. intros w r w' H. inversion H. apply R_refl. Qed.

Lemma keeps_raise {A} e : keeps R (@raise A e).
Proof. intros w r w' H. inversion H. apply R_refl. Qed.

Lemma keeps_diverge {A} : keeps R (@diverge A).
Proof. intros w r w' H. inversion H. apply R_refl. Qed.

Lemma keeps_bind {A B} (m : M A) (k : A -> M B) :
  keeps R m -> (forall a, keeps R (k a)) -> keeps R (bind m k).
Proof.
  intros Hm Hk w r w' H.
  apply bind_inv in H as [(a & w1 & H1 & H2) | [(e & H1 & _) | [H1 _]]].
  - eapply R_trans; [eapply Hm | eapply Hk]; eauto.
  - eapply Hm; eauto.
  - eapply Hm; eauto.
Qed.

Lemma keeps_try {A} (m : M A) cls h :
  keeps R m -> (forall e, keeps R (h e)) -> keeps R (try_except m cls h).
Proof.
  intros Hm Hh w r w' H. unfold try_except in H.
  destruct (m w) as [[a | e |] w1] eqn:E.
  - inversion H; subst. eauto.
  - destruct (catches cls e).
    + eapply R_trans; [eapply Hm; eauto | eapply Hh; eauto].
    + inversion H; subst. eauto.
  - inversion H; subst. eauto.
Qed.

Hypothesis keeps_inWaiting : forall com, keeps R (inWaiting com).
Hypothesis keeps_read : forall com n, keeps R (read com n).
Hypothesis keeps_write : forall com b, keeps R (write com b).
Hypothesis keeps_sleep : forall ms, keeps R (time_sleep ms).
Hypothesis keeps_print : forall s, keeps R (print s).
Hypothesis keeps_input : forall s, keeps R (input s).
Hypothesis keeps_log : forall n l m, keeps R (log_at n l m).
Hypothesis keeps_Serial : forall p b t r, keeps R (Serial p b t r).

Lemma keeps_time : keeps R time_time.
Proof. intros w r w' H. inversion H. apply R_refl. Qed.

Lemma keeps_drain fuel com : forall acc, keeps R (drain fuel com acc).
Proof.
  induction fuel as [| f IH]; intros acc; cbn [drain].
  - apply keeps_diverge.
  - apply keeps_bind; [apply keeps_inWaiting |]. intros n.
    destruct (n =? 0)%N; [apply keeps_ret |].
    apply keeps_bind; [apply keeps_inWaiting |]. intros k.
    apply keeps_bind; [apply keeps_read |]. intros b.
    apply keeps_bind; [apply keeps_sleep |]. intros _. apply IH.
Qed.

Lemma keeps_receive fuel com t0 : forall r, keeps R (receive fuel com t0 r).
Proof.
  induction fuel as [| f IH]; intros r; cbn [receive].
  - apply keeps_diverge.
  - apply keeps_bind; [apply keeps_drain |]. intros r'.
    destruct (bytes_in NLNL r'); [apply keeps_ret |].
    apply keeps_bind; [apply keeps_time |]. intros now.
    destruct (now - t0 >? 2000); [apply keeps_raise |].
    apply keeps_bind; [apply keeps_sleep |]. intros _. apply IH.
Qed.

Lemma keeps_request_bap fuel com cmd : keeps R (request_bap fuel com cmd).
Proof.
  destruct cmd; cbn [request_bap]; try apply keeps_raise.
  apply keeps_bind.
  - unfold start_request.
    apply keeps_bind; [apply keeps_drain |]. intros _.
    apply keeps_bind.
    + unfold str_encode. destruct (encode (s ++ NL));
        [apply keeps_ret | apply keeps_raise].
    + intros data. apply keeps_bind; [apply keeps_write |]. intros _.
      apply keeps_time.
  - intros t0. apply keeps_bind; [apply keeps_receive |]. intros r.
    unfold bytes_decode. destruct (decode r);
      [apply keeps_ret | apply keeps_raise].
Qed.

Lemma keeps_send fuel com cmd : keeps R (send fuel com cmd).
Proof.
  unfold send. apply keeps_try; [apply keeps_request_bap |]. intros e.
  apply keeps_bind; [apply keeps_log |]. intros _. apply keeps_ret.
Qed.

Lemma keeps_py_int s : keeps R (py_int s).
Proof.
  intros w r w' H. unfold py_int in H.
  destruct (int_of_str (env w) s); inversion H; apply R_refl.
Qed.

Lemma keeps_subscript {A} (l : list A) i : keeps R (subscript l i).
Proof.
  unfold subscript.
  destruct ((_ <? 0) || (_ <=? _)); [apply keeps_raise |].
  destruct (nth_error l _); [apply keeps_ret | apply keeps_raise].
Qed.

Lemma keeps_attempt fuel ports : keeps R (attempt fuel ports).
Proof.
  unfold attempt.
  apply keeps_bind; [apply keeps_input |]. intros port_num.
  apply keeps_bind; [apply keeps_py_int |]. intros i.
  apply keeps_bind; [apply keeps_subscript |]. intros port.
  apply keeps_bind; [apply keeps_Serial |]. intros com.
  apply keeps_bind; [apply keeps_send |]. intros resp. apply keeps_ret.
Qed.

Lemma keeps_choose_port fuel ports : keeps R (choose_port fuel ports).
Proof.
  induction fuel as [| f IH]; cbn [choose_port].
  - apply keeps_diverge.
  - apply keeps_bind; [apply keeps_attempt |]. intros [[port com] resp].
    destruct (str_in error_text resp).
    + apply keeps_bind; [apply keeps_print | intros _; apply IH].
    + destruct (str_in ok_marker resp); apply keeps_ret.
Qed.
End Frame.


Lemma grown_refl w : grown w w.
Proof. unfold grown. lia. Qed.

Lemma grown_trans a b c : grown a b -> grown b c -> grown a c.
Proof. unfold grown. lia. Qed.

Lemma still_open_refl w : still_open w w.
Proof. intros h c H O. eauto. Qed.

Lemma still_open_trans a b c :
  still_open a b -> still_open b c -> still_open a c.
Proof.
  intros H1 H2 h x Hx O.
  destruct (H1 h x Hx O) as (y & Hy & Oy). eauto.
Qed.

Lemma grown_put com c w : grown w (put_conn com c w).
Proof. unfold grown, put_conn. simpl. rewrite replace_nth_length. lia. Qed.

Lemma still_open_put com c c' w :
  conn_at com w = Some c -> c_open c' = c_open c ->
  still_open w (put_conn com c' w).
Proof.
  intros Hc O h x Hx Ox. destruct (Nat.eq_dec com h) as [-> | N].
  - exists c'. split; [eapply conn_at_put; eauto |].
    rewrite Hc in Hx. inversion Hx; subst. congruence.
  - exists x. split; auto. now rewrite conn_at_put_other.
Qed.

Lemma usable_inv com w c :
  usable com w = Some c ->
  exists c0, conn_at com w = Some c0 /\ c = settle (clock w) c0
             /\ c_open c = c_open c0.
Proof.
  unfold usable, conn_at. destruct (nth_error (conns w) com) as [c0 |];
    [| discriminate].
  destruct (down (clock w) c0); [discriminate |].
  intros H. inversion H. exists c0. repeat split.
  apply (settle_fields (clock w) c0).
Qed.

Lemma grown_inWaiting com : keeps grown (inWaiting com).
Proof.
  intros w r w' H. unfold inWaiting in H.
  destruct (usable com w); inversion H; [apply grown_put | apply grown_refl].
Qed.

Lemma grown_read com n : keeps grown (read com n).
Proof.
  intros w r w' H. unfold read in H.
  destruct (usable com w) as [c |]; [| inversion H; apply grown_refl].
  destruct (n <=? N.of_nat (List.length (c_rx c)))%N;
    [inversion H; apply grown_put |].
  destruct (c_timeout c); inversion H; [| apply grown_refl].
  unfold grown. simpl. rewrite replace_nth_length. lia.
Qed.

Lemma grown_write com b : keeps grown (write com b).
Proof.
  intros w r w' H. unfold write in H.
  destruct (usable com w); inversion H; [apply grown_put | apply grown_refl].
Qed.

Lemma grown_sleep ms : keeps grown (time_sleep ms).
Proof. intros w r w' H. inversion H. unfold grown. simpl. lia. Qed.

Lemma grown_print s : keeps grown (print s).
Proof. intros w r w' H. inversion H. unfold grown. simpl. lia. Qed.

Lemma grown_input s : keeps grown (input s).
Proof.
  intros w r w' H. unfold input in H. simpl in H.
  destruct (stdin w); inversion H; unfold grown; simpl; lia.
Qed.

Lemma grown_log n l m : keeps grown (log_at n l m).
Proof. intros w r w' H. inversion H. unfold grown. simpl. lia. Qed.

Lemma grown_Serial p b t r : keeps grown (Serial p b t r).
Proof.
  intros w x w' H. unfold Serial in H.
  destruct (can_open (env w) p); inversion H; unfold grown; simpl.
  - rewrite length_app. lia.
  - lia.
Qed.

Lemma open_inWaiting com : keeps still_open (inWaiting com).
Proof.
  intros w r w' H. unfold inWaiting in H.
  destruct (usable com w) as [c |] eqn:E;
    inversion H; [| apply still_open_refl].
  apply usable_inv in E as (c0 & E1 & E2 & E3).
  eapply still_open_put; eauto.
Qed.

Lemma open_read com n : keeps still_open (read com n).
Proof.
  intros w r w' H. unfold read in H.
  destruct (usable com w) as [c |] eqn:E;
    [| inversion H; apply still_open_refl].
  apply usable_inv in E as (c0 & E1 & E2 & E3).
  destruct (n <=? N.of_nat (List.length (c_rx c)))%N.
  - inversion H. eapply still_open_put; eauto.
  - destruct (c_timeout c) as [ms |]; inversion H; [| apply still_open_refl].
    match goal with
    | |- still_open w (set_clock ?t (put_conn com ?x w)) =>
        change (still_open w (put_conn com x w))
    end.
    eapply still_open_put; eauto. simpl.
    destruct (settle_fields (clock w + ms) c) as (_ & _ & O & _). congruence.
Qed.

Lemma open_write com b : keeps still_open (write com b).
Proof.
  intros w r w' H. unfold write in H.
  destruct (usable com w) as [c |] eqn:E;
    inversion H; [| apply still_open_refl].
  apply usable_inv in E as (c0 & E1 & E2 & E3).
  eapply still_open_put; eauto.
Qed.

Lemma open_sleep ms : keeps still_open (time_sleep ms).
Proof. intros w r w' H. inversion H. intros h c Hc O. exists c. auto. Qed.

Lemma open_print s : keeps still_open (print s).
Proof. intros w r w' H. inversion H. intros h c Hc O. exists c. auto. Qed.

Lemma open_input s : keeps still_open (input s).
Proof.
  intros w r w' H. unfold input in H. simpl in H.
  destruct (stdin w); inversion H; intros h c Hc O; exists c; auto.
Qed.

Lemma open_log n l m : keeps still_open (log_at n l m).
Proof. intros w r w' H. inversion H. intros h c Hc O. exists c. auto. Qed.

Lemma open_Serial p b t r : keeps still_open (Serial p b t r).
Proof.
  intros w x w' H. unfold Serial in H.
  destruct (can_open (env w) p); inversion H; [| apply still_open_refl].
  intros h c Hc O. exists c. split; auto.
  unfold conn_at in *. simpl. rewrite nth_error_app1; auto.
  apply nth_error_Some. congruence.
Qed.

Lemma send_grown fuel com cmd : keeps grown (send fuel com cmd).
Proof.
  apply keeps_send;
    first [ exact grown_refl | exact grown_trans | exact grown_inWaiting
          | exact grown_read | exact grown_write | exact grown_sleep
          | exact grown_log ].
Qed.

Lemma choose_port_grown fuel ports : keeps grown (choose_port fuel ports).
Proof.
  apply keeps_choose_port;
    first [ exact grown_refl | exact grown_trans | exact grown_inWaiting
          | exact grown_read | exact grown_write | exact grown_sleep
          | exact grown_log | exact grown_print | exact grown_input
          | exact grown_Serial ].
Qed.

(** The loop that chooses the port closes nothing. *)
Lemma choose_port_never_closes fuel ports : keeps still_open (choose_port fuel ports).
Proof.
  apply keeps_choose_port;
    first [ exact still_open_refl | exact still_open_trans
          | exact open_inWaiting | exact open_read | exact open_write
          | exact open_sleep | exact open_log | exact open_print
          | exact open_input | exact open_Serial ].
Qed.

(** The handle of a round is new, and it is in the table afterwards. *)
Lemma attempt_handle fuel ports w port com resp w1 :
  attempt fuel ports w = (Ret (port, com, resp), w1) ->
  (List.length (conns w) <= com < List.length (conns w1))%nat.
Proof.
  unfold attempt. intros H.
  apply bind_inv in H as [(port_num & wa & A & H) | [(e & _ & ?) | [_ ?]]];
    try discriminate.
  apply bind_inv in H as [(i & wb & B & H) | [(e & _ & ?) | [_ ?]]];
    try discriminate.
  apply bind_inv in H as [(p & wc & C & H) | [(e & _ & ?) | [_ ?]]];
    try discriminate.
  apply bind_inv in H as [(h & wd & O & H) | [(e & _ & ?) | [_ ?]]];
    try discriminate.
  apply bind_inv in H as [(rs & we & S & H) | [(e & _ & ?) | [_ ?]]];
    try discriminate.
  unfold ret in H. inversion H; subst p h rs we. clear H.
  apply grown_input in A.
  apply (keeps_py_int grown grown_refl) in B.
  apply (keeps_subscript grown grown_refl) in C.
  apply send_grown in S.
  unfold open_unit, Serial in O.
  destruct (can_open (env wc) port); [| discriminate].
  inversion O; subst com wd. clear O.
  unfold grown in *. simpl in S. rewrite length_app in S. simpl in S. lia.
Qed.

Lemma choose_port_fresh fuel ports : forall w port com w',
  choose_port fuel ports w = (Ret (port, com), w') ->
  (List.length (conns w) <= com)%nat.
Proof.
  induction fuel as [| f IH]; intros w port com w' H; [discriminate |].
  cbn [choose_port] in H.
  apply bind_inv in H as [([[p h] resp] & w1 & A & H) | [(e & _ & ?) | [_ ?]]];
    try discriminate.
  apply attempt_handle in A.
  destruct (str_in error_text resp).
  - apply bind_inv in H as [(u & w2 & P & H) | [(e & _ & ?) | [_ ?]]];
      try discriminate.
    apply grown_print in P. apply IH in H. unfold grown in P. lia.
  - assert (H' : (Ret (p, h), w1) = (Ret (port, com), w'))
      by (destruct (str_in ok_marker resp); exact H).
    inversion H'; subst. lia.
Qed.
(** A connection that the loop has turned down is still open when the loop
    ends, however it ends. *)
Lemma rejected_connection_stays_open f ports w port com resp w1 r w' :
  attempt (S f) ports w = (Ret (port, com, resp), w1) ->
  (exists c, conn_at com w1 = Some c /\ c_open c = true) ->
  str_in error_text resp = true ->
  choose_port (S f) ports w = (r, w') ->
  exists c', conn_at com w' = Some c' /\ c_open c' = true.
Proof.
  intros A (c & Hc & O) E H.
  rewrite (choose_port_step _ _ _ _ _ _ _ A), E in H.
  apply bind_inv in H as [(u & w2 & P & H) | [(e & P & _) | [P _]]];
    try discriminate.
  apply choose_port_never_closes in H. inversion P; subst u w2.
  eapply H; eauto.
Qed.

(** C2, as the code has it.  After a round of the loop that chooses the
    port has got its reply: when the reply does not hold the word [error],
    the loop stops and keeps the connection of that round; when it holds it,
    the loop prints its message and goes into another round, and whatever
    that ends with is not this connection.  So the candidate is kept if and
    only if the reply does not hold [error]; the marker [200 OK] has no part
    in it. *)
Theorem choose_port_verdict f ports w port com resp w1 :
  attempt (S f) ports w = (Ret (port, com, resp), w1) ->
  (str_in error_text resp = false ->
   choose_port (S f) ports w = (Ret (port, com), w1))
  /\ (str_in error_text resp = true ->
      choose_port (S f) ports w
      = choose_port f ports
          (set_stdout (stdout w1 ++ [try_another ++ NL]) w1))
  /\ ((exists p w', choose_port (S f) ports w = (Ret (p, com), w'))
      <-> str_in error_text resp = false).
Proof.
  intros A. rewrite (choose_port_step _ _ _ _ _ _ _ A).
  destruct (str_in error_text resp) eqn:E.
  - split; [discriminate |]. split; [reflexivity |].
    split; [| discriminate]. intros (p & w' & H). exfalso.
    cbv beta iota in H.
    change ((print try_another ;; choose_port f ports) w1)
      with (choose_port f ports
              (set_stdout (stdout w1 ++ [try_another ++ NL]) w1)) in H.
    apply choose_port_fresh in H. apply attempt_handle in A.
    simpl in H. lia.
  - split; [reflexivity |]. split; [discriminate |].
    split; [reflexivity |]. intros _. exists port, w1. reflexivity.
Qed.

Lemma choose_port_verdict_witness :
  fst (attempt 300 [Scenario.ttyS0; Scenario.ttyACM0]
         (Scenario.boot Scenario.two_ports [lit "1"]))
  = Ret (Scenario.ttyACM0, 0%nat, lit "cpufw 1.0 4798 dspfw 1.0" ++ [10%N] ++ lit "200 OK" ++ [10; 10]%N)
  /\ fst (choose_port 300 [Scenario.ttyS0; Scenario.ttyACM0]
            (Scenario.boot Scenario.two_ports [lit "1"]))
     = Ret (Scenario.ttyACM0, 0%nat).
Proof.
  assert (A : attempt 300 [Scenario.ttyS0; Scenario.ttyACM0]
                (Scenario.boot Scenario.two_ports [lit "1"])
              = (Ret (Scenario.ttyACM0, 0%nat,
                      lit "cpufw 1.0 4798 dspfw 1.0" ++ [10%N] ++ lit "200 OK" ++ [10; 10]%N),
                 snd (attempt 300 [Scenario.ttyS0; Scenario.ttyACM0]
                        (Scenario.boot Scenario.two_ports [lit "1"]))))
    by (vm_compute; reflexivity).
  split; [now rewrite A |].
  now rewrite (proj1 (choose_port_verdict 299 _ _ _ _ _ _ A) eq_refl).
Defined.

(** C2 fails as stated: this device answers [hello] and a blank line, which
    holds no [200 OK], and the loop stops and keeps its connection. *)
Lemma reply_without_marker_is_kept :
  fst (attempt 300 [Scenario.ttyS0; Scenario.ttyACM0]
         (Scenario.boot (Scenario.bench Scenario.stranger) [lit "0"]))
  = Ret (Scenario.ttyS0, 0%nat, lit "hello" ++ [10; 10]%N)
  /\ str_in ok_marker (lit "hello" ++ [10; 10]%N) = false
  /\ fst (choose_port 300 [Scenario.ttyS0; Scenario.ttyACM0]
            (Scenario.boot (Scenario.bench Scenario.stranger) [lit "0"]))
     = Ret (Scenario.ttyS0, 0%nat)
  /\ map c_open
       (conns (snd (choose_port 300 [Scenario.ttyS0; Scenario.ttyACM0]
                      (Scenario.boot (Scenario.bench Scenario.stranger) [lit "0"]))))
     = [true].
Proof. vm_compute. repeat split; reflexivity. Qed.

(** C3, as the code has it.  The connection that [select_port] hands over
    has had the line [version] written to it, and nothing else, when there
    are several ports; with a single port it is opened and handed over with
    nothing written to it. *)
Theorem select_port_probes_when_several fuel ports w com w' :
  select_port fuel ports w = (Ret com, w') ->
  exists c,
    conn_at com w' = Some c
    /\ c_tx c = if (1 <? List.length ports)%nat then [version_line] else [].
Proof.
  unfold select_port. intros H.
  destruct (1 <? List.length ports)%nat.
  - apply bind_inv in H as [([p o] & w1 & P & H) | [(e & _ & ?) | [_ ?]]];
      try discriminate.
    rewrite (bind_ret _ _ _ _ _ (log_at_eq _ _ _ w)) in P.
    match type of P with bind (log_ports _ _) _ ?w0 = _ =>
      destruct (log_ports_frame ports 0%N w0) as (w2 & L) end.
    rewrite (bind_ret _ _ _ _ _ L) in P.
    apply bind_inv in P as [([p' h] & w3 & C & P) | [(e & _ & ?) | [_ ?]]];
      try discriminate.
    unfold ret in P. inversion P; subst p o w3. clear P.
    simpl in H. unfold ret in H. inversion H; subst h w1.
    eapply choose_port_tx; eauto.
  - apply bind_inv in H as [([p o] & w1 & P & H) | [(e & _ & ?) | [_ ?]]];
      try discriminate.
    apply bind_inv in P as [(p' & w2 & _ & P) | [(e & _ & ?) | [_ ?]]];
      try discriminate.
    unfold ret in P. inversion P; subst p o w2. clear P.
    simpl in H. unfold open_unit, Serial in H.
    destruct (can_open (env w1) p'); [| discriminate].
    inversion H; subst com w'.
    eexists. split; [apply nth_error_last | reflexivity].
Qed.

Lemma select_port_probes_when_several_witness :
  select_port 300 [Scenario.ttyS0; Scenario.ttyACM0]
    (Scenario.boot Scenario.two_ports [lit "1"])
  = (Ret 0%nat,
     snd (select_port 300 [Scenario.ttyS0; Scenario.ttyACM0]
            (Scenario.boot Scenario.two_ports [lit "1"])))
  /\ exists c,
       conn_at 0%nat
         (snd (select_port 300 [Scenario.ttyS0; Scenario.ttyACM0]
                 (Scenario.boot Scenario.two_ports [lit "1"])))
       = Some c
       /\ c_tx c = [version_line].
Proof.
  assert (A : select_port 300 [Scenario.ttyS0; Scenario.ttyACM0]
                (Scenario.boot Scenario.two_ports [lit "1"])
              = (Ret 0%nat,
                 snd (select_port 300 [Scenario.ttyS0; Scenario.ttyACM0]
                        (Scenario.boot Scenario.two_ports [lit "1"]))))
    by (vm_compute; reflexivity).
  split; [exact A |].
  exact (select_port_probes_when_several _ _ _ _ _ A).
Defined.

(** C3 fails as stated: with the single port of this host, the connection
    is handed over with nothing written to it, and the only line that
    [main] then writes to it is the command of the operator. *)
Lemma single_port_is_not_probed :
  fst (select_port 300 [Scenario.ttyS0] (Scenario.boot Scenario.one_port []))
  = Ret 0%nat
  /\ map c_tx
       (conns (snd (select_port 300 [Scenario.ttyS0]
                      (Scenario.boot Scenario.one_port []))))
     = [[]]
  /\ map c_tx
       (conns (snd (main 300
                      {| a_command := Some (lit "foo"); a_port := None;
                         a_verbosity := 0 |}
                      (Scenario.boot Scenario.one_port []))))
     = [[]; [Scenario.bytes_of "foo" ++ [x0a]]].
Proof. vm_compute. repeat split; reflexivity. Qed.


(** * Further properties *)

(** ** Connections under the operations *)

Section OnConnections.
Context {B : Type} (f : conn -> B).
Hypothesis f_line : forall ref inc rx c, f (set_line ref inc rx c) = f c.

Lemma same_on_refl w : same_on f w w.
Proof. intros h c H. eauto. Qed.

Lemma same_on_trans a b c :
  same_on f a b -> same_on f b c -> same_on f a c.
Proof.
  intros H1 H2 h x Hx. destruct (H1 h x Hx) as (y & Hy & Fy).
  destruct (H2 h y Hy) as (z & Hz & Fz). exists z. split; congruence.
Qed.

Lemma same_on_put com c c' w :
  conn_at com w = Some c -> f c' = f c -> same_on f w (put_conn com c' w).
Proof.
  intros Hc F h x Hx. destruct (Nat.eq_dec com h) as [-> | N].
  - exists c'. split; [eapply conn_at_put; eauto |].
    rewrite Hc in Hx. inversion Hx; subst. exact F.
  - exists x. split; auto. now rewrite conn_at_put_other.
Qed.

Lemma f_settle t c : f (settle t c) = f c.
Proof.
  unfold settle.
  destruct (arrive t (c_ref c) (c_incoming c) (c_rx c)) as [[r1 i1] x1].
  apply f_line.
Qed.

Lemma same_on_inWaiting com : keeps (same_on f) (inWaiting com).
Proof.
  intros w r w' H. unfold inWaiting in H.
  destruct (usable com w) as [c |] eqn:E; inversion H; [| apply same_on_refl].
  apply usable_inv in E as (c0 & E1 & E2 & E3).
  eapply same_on_put; eauto. subst c. apply f_settle.
Qed.

Lemma same_on_read com n : keeps (same_on f) (read com n).
Proof.
  intros w r w' H. unfold read in H.
  destruct (usable com w) as [c |] eqn:E;
    [| inversion H; apply same_on_refl].
  apply usable_inv in E as (c0 & E1 & E2 & E3).
  destruct (n <=? N.of_nat (List.length (c_rx c)))%N.
  - inversion H. eapply same_on_put; eauto.
    rewrite f_line. subst c. apply f_settle.
  - destruct (c_timeout c) as [ms |]; inversion H; [| apply same_on_refl].
    match goal with
    | |- same_on f w (set_clock ?t (put_conn com ?x w)) =>
        change (same_on f w (put_conn com x w))
    end.
    eapply same_on_put; eauto.
    rewrite f_line, f_settle. subst c. apply f_settle.
Qed.

Lemma same_on_sleep ms : keeps (same_on f) (time_sleep ms).
Proof. intros w r w' H. inversion H. intros h c Hc. exists c. auto. Qed.



Lemma same_on_log n l m : keeps (same_on f) (log_at n l m).
Proof. intros w r w' H. inversion H. intros h c Hc. exists c. auto. Qed.

Lemma same_on_Serial p b t r : keeps (same_on f) (Serial p b t r).
Proof.
  intros w x w' H. unfold Serial in H.
  destruct (can_open (env w) p); inversion H; [| apply same_on_refl].
  intros h c Hc. exists c. split; auto.
  unfold conn_at in *. simpl. rewrite nth_error_app1; auto.
  apply nth_error_Some. congruence.
Qed.

Lemma same_on_write com b :
  (forall tx c, f (set_tx tx c) = f c) -> keeps (same_on f) (write com b).
Proof.
  intros f_tx w r w' H. unfold write in H.
  destruct (usable com w) as [c |] eqn:E; inversion H; [| apply same_on_refl].
  apply usable_inv in E as (c0 & E1 & E2 & E3).
  eapply same_on_put; eauto. rewrite f_tx. subst c. apply f_settle.
Qed.


End OnConnections.

Lemma setup_line ref inc rx c : setup (set_line ref inc rx c) = setup c.
Proof. reflexivity. Qed.

Lemma setup_tx tx c : setup (set_tx tx c) = setup c.
Proof. reflexivity. Qed.


(** ** The exchange, step by step *)










(** ** How long an exchange takes, and that it ends *)






Lemma drain_ends fuel com : forall acc w c,
  conn_at com w = Some c -> (backlog c + 1 <= fuel)%nat ->
  fst (drain fuel com acc w) <> Diverge.
Proof.
  induction fuel as [| f IH]; intros acc w c Hc Hb; [lia |].
  cbn [drain].
  destruct (down (clock w) c) eqn:D.
  - rewrite (bind_raise _ _ _ _ _
               (inWaiting_down com w ltac:(unfold link_down; now rewrite Hc))).
    discriminate.
  - rewrite (bind_ret _ _ _ _ _ (inWaiting_ok com w c Hc D)).
    set (c1 := settle (clock w) c).
    assert (S1 : settle (clock w) c1 = c1) by apply settle_idem.
    assert (D1 : down (clock w) c1 = false)
      by (unfold c1; now rewrite down_settle).
    destruct (N.of_nat (List.length (c_rx c1)) =? 0)%N eqn:E.
    + discriminate.
    + set (w1 := put_conn com c1 w).
      assert (Hc1 : conn_at com w1 = Some c1) by (eapply conn_at_put; eauto).
      assert (K1 : inWaiting com w1
                   = (Ret (N.of_nat (List.length (c_rx c1))),
                      put_conn com c1 w1)).
      { rewrite (inWaiting_ok com w1 c1 Hc1 D1). simpl. now rewrite S1. }
      rewrite (bind_ret _ _ _ _ _ K1).
      set (w2 := put_conn com c1 w1).
      assert (Hc2 : conn_at com w2 = Some c1) by (eapply conn_at_put; eauto).
      rewrite (bind_ret _ _ _ _ _ (read_all com w2 c1 Hc2 D1 S1)).
      set (c2 := set_line (c_ref c1) (c_incoming c1) [] c1).
      set (w3 := put_conn com c2 w2).
      unfold time_sleep at 1. unfold bind at 1.
      set (w4 := set_clock (clock w3 + 10) w3).
      assert (Hc4 : conn_at com w4 = Some c2)
        by (unfold w4, w3; eapply conn_at_put; eauto).
      apply (IH _ w4 c2 Hc4).
      pose proof (backlog_settle (clock w) c) as Bs. fold c1 in Bs.
      unfold backlog in Bs, Hb |- *. simpl.
      destruct (c_rx c1); [discriminate E |]. lia.
Qed.

Lemma receive_ends fuel com t0 : forall r0 w c,
  conn_at com w = Some c -> (backlog c + 1 <= fuel)%nat ->
  10 * Z.of_nat (backlog c) + 10 + (2010 - (clock w - t0))
  <= 10 * Z.of_nat fuel ->
  fst (receive fuel com t0 r0 w) <> Diverge.
Proof.
  induction fuel as [| f IH]; intros r0 w c Hc Hb Ht; [lia |].
  cbn [receive].
  pose proof (drain_ends (S f) com r0 w c Hc Hb) as De.
  pose proof (drain_spec (S f) com r0 w c Hc) as D.
  destruct (drain (S f) com r0 w) as [[r1 | e |] w1] eqn:E.
  - rewrite (bind_ret _ _ _ _ _ E).
    destruct D as (c1 & D1 & D2 & D3 & D4 & D5 & D6 & D7 & D8 & D9 & D10).
    destruct (bytes_in NLNL r1); [discriminate |].
    unfold bind at 1. unfold time_time. cbv beta iota.
    destruct (clock w1 - t0 >? 2000) eqn:T; [discriminate |].
    unfold bind at 1. unfold time_sleep. cbv beta iota.
    set (w2 := set_clock (clock w1 + 10) w1).
    assert (Hc2 : conn_at com w2 = Some c1) by exact D1.
    assert (T' : clock w1 - t0 <= 2000).
    { destruct (Z.gtb_spec (clock w1 - t0) 2000); [discriminate | lia]. }
    assert (B1 : (backlog c1 <= backlog c)%nat).
    { unfold backlog. rewrite D4. lia. }
    apply (IH r1 w2 c1 Hc2); unfold w2; cbn [clock set_clock]; lia.
  - rewrite (bind_raise _ _ _ _ _ E). discriminate.
  - simpl in De. congruence.
Qed.

Lemma request_bap_ends fuel com cmd w c :
  conn_at com w = Some c -> (backlog c + 203 <= fuel)%nat ->
  fst (request_bap fuel com cmd w) <> Diverge.
Proof.
  intros Hc Hb. destruct cmd; try discriminate.
  cbn [request_bap]. unfold start_request.
  pose proof (drain_ends fuel com [] w c Hc ltac:(lia)) as De.
  pose proof (drain_spec fuel com [] w c Hc) as D.
  destruct (drain fuel com [] w) as [[r1 | e |] wa] eqn:E.
  - destruct D as (ca & D1 & D2 & D3 & D4 & D5 & D6 & D7 & D8 & D9 & D10).
    unfold bind at 1 2. rewrite E. unfold str_encode.
    destruct (encode (s ++ NL)) as [data |]; [| discriminate].
    cbv beta iota. unfold ret at 1. unfold bind at 1 2.
    rewrite (write_ok com data wa ca D1 D2), D3. cbv beta iota.
    unfold time_time.
    set (c2 := set_tx (c_tx ca ++ [data]) ca).
    set (wb := put_conn com c2 wa).
    assert (Hb2 : conn_at com wb = Some c2) by (eapply conn_at_put; eauto).
    assert (B2 : (backlog c2 <= backlog c)%nat).
    { unfold backlog, c2. simpl. rewrite D4. lia. }
    pose proof (receive_ends fuel com (clock wb) [] wb c2 Hb2
                  ltac:(lia) ltac:(lia)) as Re.
    unfold bind. destruct (receive fuel com (clock wb) [] wb) as [[b | e |] wc].
    + unfold bytes_decode. destruct (decode b); discriminate.
    + discriminate.
    + simpl in Re. congruence.
  - unfold bind at 1 2. rewrite E. discriminate.
  - simpl in De. congruence.
Qed.

Lemma send_answers fuel com cmd w c :
  conn_at com w = Some c -> (backlog c + 203 <= fuel)%nat ->
  exists text w', send fuel com cmd w = (Ret text, w').
Proof.
  intros Hc Hb. unfold send, try_except.
  pose proof (request_bap_ends fuel com cmd w c Hc Hb) as E.
  destruct (request_bap fuel com cmd w) as [[t | e |] w1] eqn:R.
  - eauto.
  - rewrite (request_bap_raises_exception _ _ _ _ _ _ R).
    eexists. eexists. reflexivity.
  - simpl in E. congruence.
Qed.

Lemma send_never_raises fuel com cmd w e : fst (send fuel com cmd w) <> Raise e.
Proof.
  unfold send, try_except.
  destruct (request_bap fuel com cmd w) as [[t | e' |] w1] eqn:R;
    try discriminate.
  rewrite (request_bap_raises_exception _ _ _ _ _ _ R). discriminate.
Qed.

(** X5.  On a connection of the table, and with an iteration bound of 203
    more than the chunks still to come, [send] always answers with a text:
    it neither raises nor runs on, whatever the device sends and whenever
    the link goes down. *)
Theorem send_always_answers fuel com cmd w c :
  conn_at com w = Some c -> (backlog c + 203 <= fuel)%nat ->
  exists text w', send fuel com cmd w = (Ret text, w').
Proof. apply send_answers. Qed.

Lemma send_always_answers_witness :
  conn_at 0%nat (Scenario.opened Scenario.pulled)
  = Some (line_before Scenario.pulled)
  /\ exists text w',
       send 300 0%nat (VStr version) (Scenario.opened Scenario.pulled)
       = (Ret text, w').
Proof.
  assert (Hc : conn_at 0%nat (Scenario.opened Scenario.pulled)
               = Some (line_before Scenario.pulled)) by reflexivity.
  split; [exact Hc |].
  refine (send_always_answers 300 0%nat (VStr version) _ _ Hc _).
  vm_compute. lia.
Defined.

(** ** Discovery *)

Lemma logged_silently_refl w : logged_silently w w.
Proof. exists []. split; [now rewrite app_nil_r | constructor]. Qed.

Lemma logged_silently_trans a b c :
  logged_silently a b -> logged_silently b c -> logged_silently a c.
Proof.
  intros (n1 & E1 & F1) (n2 & E2 & F2). exists (n1 ++ n2). split.
  - rewrite E2, E1. now rewrite app_assoc.
  - apply Forall_app. auto.
Qed.

Lemma logged_silently_eq w w' : log w' = log w -> logged_silently w w'.
Proof. intros E. exists []. split; [now rewrite app_nil_r | constructor]. Qed.

Lemma probe_open_stdin ports : forall available,
  keeps same_stdin (probe_open ports available).
Proof.
  assert (Rr : forall w, same_stdin w w) by reflexivity.
  assert (Rt : forall a b c, same_stdin a b -> same_stdin b c -> same_stdin a c)
    by (unfold same_stdin; congruence).
  induction ports as [| port rest IH]; intros available; cbn [probe_open].
  - now apply keeps_ret.
  - apply keeps_bind; auto. apply keeps_try; auto.
    + apply keeps_bind; auto.
      * intros w r w' H. unfold Serial in H.
        destruct (can_open (env w) port); inversion H; reflexivity.
      * intros s. apply keeps_bind; auto.
        -- intros w r w' H. unfold close in H.
           destruct (nth_error (conns w) s); inversion H; reflexivity.
        -- intros _. now apply keeps_ret.
    + intros _. now apply keeps_ret.
Qed.

(** Under the level of the scan, a record below CRITICAL is not emitted. *)
Lemma log_at_muted level msg w :
  muted w -> (level <? CRITICAL)%N = true ->
  exists w',
    log_at "scan_ports" level msg w = (Ret tt, w')
    /\ env w' = env w /\ conns w' = conns w /\ same_terminal w w'
    /\ root_level w' = root_level w /\ logger_levels w' = logger_levels w
    /\ logged_silently w w'.
Proof.
  intros M L. eexists. split; [apply log_at_eq |].
  cbn [env conns stdin stdout root_level logger_levels log set_log].
  repeat split; auto.
  eexists. split; [reflexivity |]. constructor; [| constructor].
  cbn [l_emitted]. unfold effective_level. rewrite M.
  apply N.leb_gt. now apply N.ltb_lt.
Qed.

Lemma log_each_muted l : forall w,
  muted w ->
  exists w',
    log_each "scan_ports" l w = (Ret tt, w')
    /\ env w' = env w /\ conns w' = conns w /\ same_terminal w w'
    /\ root_level w' = root_level w /\ logger_levels w' = logger_levels w
    /\ logged_silently w w'.
Proof.
  induction l as [| x l IH]; intros w M; cbn [log_each].
  - exists w. unfold same_terminal.
    repeat split; auto using logged_silently_refl.
  - destruct (log_at_muted INFO (Text x) w M eq_refl)
      as (w1 & A1 & A2 & A3 & [A4 A4'] & A5 & A6 & A7).
    rewrite (bind_ret _ _ _ _ _ A1).
    assert (M1 : muted w1) by (unfold muted; now rewrite A6).
    destruct (IH w1 M1) as (w2 & B1 & B2 & B3 & [B4 B4'] & B5 & B6 & B7).
    exists w2. unfold same_terminal.
    repeat split; try congruence.
    eapply logged_silently_trans; eauto.
Qed.

(** The scan of a list of candidates, under the level of the scan. *)
Lemma scan_candidates_muted self ports w :
  muted w ->
  exists w' made,
    scan_candidates self ports w
    = (Ret {| _ports := filter (can_open (env w)) ports |}, w')
    /\ env w' = env w /\ same_terminal w w'
    /\ root_level w' = root_level w /\ logger_levels w' = logger_levels w
    /\ logged_silently w w'
    /\ conns w' = conns w ++ made
    /\ Forall (fun c => c_open c = false) made.
Proof.
  intros M. unfold scan_candidates.
  destruct (log_at_muted INFO (Text (lit "Scanning ports...")) w M eq_refl)
    as (w1 & A1 & A2 & A3 & [A4 A4'] & A5 & A6 & A7).
  rewrite (bind_ret _ _ _ _ _ A1).
  destruct (probe_open_spec ports [] w1)
    as (w2 & made & I1 & I2 & I3 & I4 & I5 & I6 & I7 & I8 & I9).
  pose proof (probe_open_stdin ports [] w1 _ _ I1) as I0.
  unfold same_stdin in I0.
  apply logged_silently_eq in I3.
  cbn [app] in I1. rewrite (bind_ret _ _ _ _ _ I1).
  assert (M2 : muted w2) by (unfold muted; now rewrite I5, A6).
  destruct (log_at_muted INFO (Text (lit "Available ports:")) w2 M2 eq_refl)
    as (w3 & B1 & B2 & B3 & [B4 B4'] & B5 & B6 & B7).
  rewrite (bind_ret _ _ _ _ _ B1).
  assert (M3 : muted w3) by (unfold muted; now rewrite B6).
  destruct (log_each_muted (filter (can_open (env w1)) ports) w3 M3)
    as (w4 & C1 & C2 & C3 & [C4 C4'] & C5 & C6 & C7).
  rewrite (bind_ret _ _ _ _ _ C1).
  exists w4, made. unfold ret. rewrite A2.
  split; [reflexivity |]. split; [congruence |].
  split; [split; congruence |]. split; [congruence |].
  split; [congruence |]. split.
  - eauto using logged_silently_trans.
  - split; [| exact I8]. rewrite C3, B3, I7, A3. reflexivity.
Qed.

(** What [scan_ports] does, on every platform. *)
Lemma scan_ports_spec self w :
  exists w' made,
    scan_ports self w
    = (Ret {| _ports := found (env w) (_ports self) |}, w')
    /\ env w' = env w /\ same_terminal w w'
    /\ root_level w' = root_level w
    /\ logged_silently w w'
    /\ conns w' = conns w ++ made
    /\ Forall (fun c => c_open c = false) made.
Proof.
  unfold scan_ports.
  set (wl := set_logger_levels (("scan_ports"%string, CRITICAL)
                                  :: logger_levels w) w).
  rewrite (bind_ret _ _ _ _ _
             (eq_refl : setLevel "scan_ports" CRITICAL w = (Ret tt, wl))).
  assert (Ml : muted wl) by reflexivity.
  destruct (log_at_muted INFO (Text (lit "Starting...")) wl Ml eq_refl)
    as (w0 & A1 & A2 & A3 & [A4 A4'] & A5 & A6 & A7).
  rewrite (bind_ret _ _ _ _ _ A1).
  assert (M0 : muted w0) by (unfold muted; now rewrite A6).
  assert (S0 : logged_silently w w0) by exact A7.
  cbn [env conns stdin stdout root_level wl set_logger_levels]
    in A2, A3, A4, A4', A5.
  unfold found. rewrite A2.
  destruct (str_startswith (lit "win") (platform (env w))).
  - destruct (scan_candidates_muted self com_names w0 M0)
      as (w' & made & B1 & B2 & [B3 B3'] & B4 & B5 & B6 & B7 & B8).
    rewrite A2 in B1.
    exists w', made. rewrite B1.
    split; [reflexivity |]. split; [congruence |].
    split; [split; congruence |]. split; [congruence |].
    split; [eauto using logged_silently_trans |].
    split; [| exact B8]. rewrite B7, A3. reflexivity.
  - destruct (str_startswith (lit "linux") (platform (env w))).
    + destruct (scan_candidates_muted self (glob_tty (env w)) w0 M0)
        as (w' & made & B1 & B2 & [B3 B3'] & B4 & B5 & B6 & B7 & B8).
      rewrite A2 in B1.
      exists w', made. rewrite B1.
      split; [reflexivity |]. split; [congruence |].
      split; [split; congruence |]. split; [congruence |].
      split; [eauto using logged_silently_trans |].
      split; [| exact B8]. rewrite B7, A3. reflexivity.
    + destruct (log_at_muted ERROR (Text (lit "Unsupported OS")) w0 M0 eq_refl)
        as (w1 & B1 & B2 & B3 & [B4 B4'] & B5 & B6 & B7).
      rewrite (bind_ret _ _ _ _ _ B1).
      exists w1, []. unfold ret. destruct self.
      rewrite app_nil_r.
      split; [reflexivity |]. split; [congruence |].
      split; [split; congruence |]. split; [congruence |].
      split; [eauto using logged_silently_trans |].
      split; [congruence | constructor].
Qed.

Lemma get_ports_spec self w :
  exists w' made,
    get_ports self w = (Ret (found (env w) (_ports self)), w')
    /\ env w' = env w /\ same_terminal w w'
    /\ root_level w' = root_level w
    /\ logged_silently w w'
    /\ conns w' = conns w ++ made
    /\ Forall (fun c => c_open c = false) made.
Proof.
  destruct (scan_ports_spec self w) as (w' & made & S1 & S2).
  exists w', made. unfold get_ports.
  rewrite (bind_ret _ _ _ _ _ S1). split; [reflexivity | exact S2].
Qed.

Lemma found_again h old : found h (found h old) = found h old.
Proof.
  unfold found.
  destruct (str_startswith (lit "win") (platform h)); auto.
  destruct (str_startswith (lit "linux") (platform h)); auto.
Qed.

(** X6.  A scan is silent: [get_ports] prints nothing and reads nothing
    from the keyboard, and every record it writes to the log is below the
    level CRITICAL that [scan_ports] gives its logger, so that none is
    emitted. *)
Theorem get_ports_is_silent self w :
  same_terminal w (snd (get_ports self w))
  /\ logged_silently w (snd (get_ports self w)).
Proof.
  destruct (get_ports_spec self w) as (w' & made & S1 & _ & S3 & _ & S5 & _).
  rewrite S1. auto.
Qed.

(** X7.  [get_ports] never raises, and asking the same object again on the
    same host gives the same list, on every platform. *)
Theorem get_ports_again self w :
  exists l w1 w2,
    get_ports self w = (Ret l, w1)
    /\ get_ports {| _ports := l |} w1 = (Ret l, w2).
Proof.
  destruct (get_ports_spec self w) as (w1 & m1 & S1 & E1 & _).
  destruct (get_ports_spec {| _ports := found (env w) (_ports self) |} w1)
    as (w2 & m2 & S2 & _).
  exists (found (env w) (_ports self)), w1, w2. split; [exact S1 |].
  rewrite S2, E1. f_equal. f_equal. apply found_again.
Qed.

(** ** Waiting for a port, and the operator's choice *)

Lemma input_eq prompt w :
  input prompt w
  = match stdin w with
    | [] => (Raise EOFError, set_stdout (stdout w ++ [prompt]) w)
    | l :: ls => (Ret l, set_stdin ls (set_stdout (stdout w ++ [prompt]) w))
    end.
Proof. unfold input. simpl. destruct (stdin w); reflexivity. Qed.

(** One round of the loop that waits for a port. *)
Lemma wait_for_ports_step f w :
  exists w1,
    env w1 = env w /\ same_terminal w w1
    /\ wait_for_ports (S f) w
       = match found (env w) [] with
         | [] =>
             (log_at "ser_cmd" CRITICAL
                (Text (lit "Cant find usb port. Check connection cable and press ENTER...")) ;;
              input [] ;;
              wait_for_ports f) w1
         | _ :: _ => (Ret (found (env w) []), w1)
         end.
Proof.
  destruct (get_ports_spec SerialPorts_init w) as (w1 & made & S1 & S2 & S3 & _).
  exists w1. split; [exact S2 |]. split; [exact S3 |].
  cbn [wait_for_ports]. rewrite (bind_ret _ _ _ _ _ S1).
  change (_ports SerialPorts_init) with (@nil pystr).
  destruct (found (env w) []); reflexivity.
Qed.




(** X9.  When no port can be found (none opens, or the platform is not
    supported), every failed scan costs one line of keyboard input, and the
    loop ends with [EOFError] when the input is used up; it never gets to
    the choice of a port. *)
Theorem wait_for_ports_starves fuel : forall w,
  found (env w) [] = [] -> (List.length (stdin w) < fuel)%nat ->
  exists w',
    wait_for_ports fuel w = (Raise EOFError, w') /\ stdin w' = [].
Proof.
  induction fuel as [| f IH]; intros w F Hf; [lia |].
  destruct (wait_for_ports_step f w) as (w1 & E1 & [T1 T2] & St).
  rewrite St, F.
  rewrite (bind_ret _ _ _ _ _ (log_at_eq _ _ _ w1)).
  unfold bind at 1. rewrite input_eq. cbn [stdin set_log].
  destruct (stdin w1) as [| l ls] eqn:In.
  - eexists. split; [reflexivity |]. exact In.
  - apply IH.
    + cbn [env set_stdin set_stdout set_log]. now rewrite E1.
    + cbn [stdin set_stdin]. rewrite <- T1 in Hf. simpl in Hf. lia.
Qed.

Lemma wait_for_ports_starves_witness :
  found Scenario.darwin [] = []
  /\ exists w',
       wait_for_ports 5 (Scenario.boot Scenario.darwin [lit ""; lit ""])
       = (Raise EOFError, w')
       /\ stdin w' = [].
Proof.
  split; [reflexivity |].
  apply (wait_for_ports_starves 5 (Scenario.boot Scenario.darwin [lit ""; lit ""])).
  - reflexivity.
  - simpl. lia.
Defined.

Lemma input_number w :
  input (lit "Enter port number to use: ") w
  = match stdin w with
    | [] => (Raise EOFError, prompted w)
    | l :: ls => (Ret l, set_stdin ls (prompted w))
    end.
Proof. apply input_eq. Qed.

Lemma subscript_out {A} (l : list A) i w :
  i < - Z.of_nat (List.length l) \/ Z.of_nat (List.length l) <= i ->
  subscript l i w = (Raise IndexError, w).
Proof.
  intros H. unfold subscript.
  destruct (i <? 0) eqn:N.
  - apply Z.ltb_lt in N.
    destruct (i + Z.of_nat (List.length l) <? 0) eqn:J; [reflexivity |].
    apply Z.ltb_ge in J.
    destruct (Z.of_nat (List.length l) <=? i + Z.of_nat (List.length l)) eqn:K;
      [reflexivity |].
    apply Z.leb_gt in K. lia.
  - apply Z.ltb_ge in N.
    destruct (i <? 0) eqn:J; [reflexivity |].
    destruct (Z.of_nat (List.length l) <=? i) eqn:K; [reflexivity |].
    apply Z.leb_gt in K. lia.
Qed.

Lemma subscript_in {A} (l : list A) i x w :
  - Z.of_nat (List.length l) <= i < Z.of_nat (List.length l) ->
  nth_error l (index_of i (List.length l)) = Some x ->
  subscript l i w = (Ret x, w).
Proof.
  intros H E. unfold subscript. unfold index_of in E.
  destruct (i <? 0) eqn:N.
  - apply Z.ltb_lt in N.
    destruct (i + Z.of_nat (List.length l) <? 0) eqn:J;
      [apply Z.ltb_lt in J; lia |].
    destruct (Z.of_nat (List.length l) <=? i + Z.of_nat (List.length l)) eqn:K;
      [apply Z.leb_le in K; lia |].
    cbn [orb]. now rewrite E.
  - apply Z.ltb_ge in N.
    destruct (i <? 0) eqn:J; [apply Z.ltb_lt in J; lia |].
    destruct (Z.of_nat (List.length l) <=? i) eqn:K;
      [apply Z.leb_le in K; lia |].
    cbn [orb]. now rewrite E.
Qed.

(** X10.  The loop that chooses the port takes the operator's line as it
    is.  At the end of the input it ends with [EOFError]; a line that [int]
    does not read ends it with [ValueError]; a number outside the list ends
    it with [IndexError].  In each case the prompt has been shown and
    nothing else has happened: no port has been opened. *)
Theorem choose_port_bad_input f ports w :
  (stdin w = [] ->
   choose_port (S f) ports w = (Raise EOFError, prompted w))
  /\ (forall l ls,
         stdin w = l :: ls -> int_of_str (env w) l = None ->
         choose_port (S f) ports w
         = (Raise ValueError, set_stdin ls (prompted w)))
  /\ (forall l ls i,
         stdin w = l :: ls -> int_of_str (env w) l = Some i ->
         i < - Z.of_nat (List.length ports)
         \/ Z.of_nat (List.length ports) <= i ->
         choose_port (S f) ports w
         = (Raise IndexError, set_stdin ls (prompted w))).
Proof.
  split; [| split].
  - intros E. cbn [choose_port]. unfold attempt.
    assert (I : input (lit "Enter port number to use: ") w
                = (Raise EOFError, prompted w))
      by (rewrite input_number, E; reflexivity).
    now rewrite (bind_raise _ _ _ _ _ (bind_raise _ _ _ _ _ I)).
  - intros l ls E N. cbn [choose_port]. unfold attempt.
    assert (I : input (lit "Enter port number to use: ") w
                = (Ret l, set_stdin ls (prompted w)))
      by (rewrite input_number, E; reflexivity).
    assert (P : py_int l (set_stdin ls (prompted w))
                = (Raise ValueError, set_stdin ls (prompted w))).
    { unfold py_int. cbn [env set_stdin set_stdout prompted]. now rewrite N. }
    rewrite (bind_raise _ _ _ _ _
               (eq_trans (bind_ret _ _ _ _ _ I) (bind_raise _ _ _ _ _ P))).
    reflexivity.
  - intros l ls i E N O. cbn [choose_port]. unfold attempt.
    assert (I : input (lit "Enter port number to use: ") w
                = (Ret l, set_stdin ls (prompted w)))
      by (rewrite input_number, E; reflexivity).
    assert (P : py_int l (set_stdin ls (prompted w))
                = (Ret i, set_stdin ls (prompted w))).
    { unfold py_int. cbn [env set_stdin set_stdout prompted]. now rewrite N. }
    rewrite (bind_raise _ _ _ _ _
               (eq_trans (bind_ret _ _ _ _ _ I)
                  (eq_trans (bind_ret _ _ _ _ _ P)
                     (bind_raise _ _ _ _ _ (subscript_out ports i _ O))))).
    reflexivity.
Qed.

Lemma choose_port_bad_input_witness :
  choose_port 300 [Scenario.ttyS0; Scenario.ttyACM0]
    (Scenario.boot Scenario.two_ports [lit "2"])
  = (Raise IndexError,
     set_stdin [] (prompted (Scenario.boot Scenario.two_ports [lit "2"])))
  /\ choose_port 300 [Scenario.ttyS0; Scenario.ttyACM0]
       (Scenario.boot Scenario.two_ports [lit "one"])
     = (Raise ValueError,
        set_stdin [] (prompted (Scenario.boot Scenario.two_ports [lit "one"])))
  /\ choose_port 300 [Scenario.ttyS0; Scenario.ttyACM0]
       (Scenario.boot Scenario.two_ports [])
     = (Raise EOFError, prompted (Scenario.boot Scenario.two_ports [])).
Proof.
  split; [| split].
  - apply (proj2 (proj2 (choose_port_bad_input 299 _ _)) (lit "2") [] 2);
      [reflexivity | reflexivity | simpl; lia].
  - apply (proj1 (proj2 (choose_port_bad_input 299 _ _)) (lit "one") []);
      reflexivity.
  - apply (proj1 (choose_port_bad_input 299 _ _)). reflexivity.
Defined.

Lemma Serial_fresh port baud tmo rts w :
  can_open (env w) port = true ->
  Serial port baud tmo rts w
  = (Ret (List.length (conns w)),
     set_conns (conns w ++ [fresh_conn port baud tmo rts w]) w).
Proof. intros H. unfold Serial. now rewrite H. Qed.

(** X11.  A number within the list, counted from the end when it is
    negative, chooses that port.  When the port does not open, the round
    ends with [SerialException], which nothing catches; when it opens, the
    round gives back that port, a new connection to it, and a reply. *)
Theorem attempt_opens_chosen fuel ports w l ls i p :
  stdin w = l :: ls -> int_of_str (env w) l = Some i ->
  - Z.of_nat (List.length ports) <= i < Z.of_nat (List.length ports) ->
  nth_error ports (index_of i (List.length ports)) = Some p ->
  (can_open (env w) p = false ->
   attempt fuel ports w = (Raise SerialException, set_stdin ls (prompted w)))
  /\ (can_open (env w) p = true ->
      (List.length (script (device_on (env w) p)) + 203 <= fuel)%nat ->
      exists resp w',
        attempt fuel ports w = (Ret (p, List.length (conns w), resp), w')).
Proof.
  intros E N R P. unfold attempt.
  assert (I : input (lit "Enter port number to use: ") w
              = (Ret l, set_stdin ls (prompted w)))
    by (rewrite input_number, E; reflexivity).
  set (w2 := set_stdin ls (prompted w)) in *.
  assert (Pi : py_int l w2 = (Ret i, w2)).
  { unfold py_int, w2. cbn [env set_stdin set_stdout prompted]. now rewrite N. }
  rewrite (bind_ret _ _ _ _ _ I), (bind_ret _ _ _ _ _ Pi),
    (bind_ret _ _ _ _ _ (subscript_in ports i p w2 R P)).
  split.
  - intros O. unfold open_unit.
    now rewrite (bind_raise _ _ _ _ _ (Serial_refused p _ _ _ w2 O)).
  - intros O Hf. unfold open_unit.
    rewrite (bind_ret _ _ _ _ _ (Serial_fresh p _ _ _ w2 O)).
    set (c0 := fresh_conn p 115200 (Some 10) true w2).
    assert (Hb : (backlog c0 + 203 <= fuel)%nat).
    { unfold backlog, c0, fresh_conn, w2.
      cbn [c_incoming c_rx env set_stdin set_stdout prompted]. lia. }
    destruct (send_answers fuel (List.length (conns w2)) (VStr version)
                (set_conns (conns w2 ++ [c0]) w2) c0 (nth_error_last _ _) Hb)
      as (resp & w' & S).
    exists resp, w'. now rewrite (bind_ret _ _ _ _ _ S).
Qed.

Lemma attempt_opens_chosen_witness :
  nth_error [Scenario.ttyS0; Scenario.ttyACM0] (index_of (-1) 2)
  = Some Scenario.ttyACM0
  /\ exists resp w',
       attempt 300 [Scenario.ttyS0; Scenario.ttyACM0]
         (Scenario.boot two_ports_signed [lit "-1"])
       = (Ret (Scenario.ttyACM0, 0%nat, resp), w').
Proof.
  split; [reflexivity |].
  apply (proj2 (attempt_opens_chosen 300 [Scenario.ttyS0; Scenario.ttyACM0]
                  (Scenario.boot two_ports_signed [lit "-1"])
                  (lit "-1") [] (-1) Scenario.ttyACM0
                  eq_refl eq_refl ltac:(simpl; lia) eq_refl)).
  - reflexivity.
  - simpl. lia.
Defined.

(** ** The connection that is handed over *)

Lemma send_setup fuel com cmd : keeps (same_on setup) (send fuel com cmd).
Proof.
  apply keeps_send;
    first [ exact (same_on_refl setup) | exact (same_on_trans setup)
          | exact (same_on_inWaiting setup setup_line)
          | exact (same_on_read setup setup_line)
          | exact (fun com b => same_on_write setup setup_line com b setup_tx)
          | exact (same_on_sleep setup) | exact (same_on_log setup) ].
Qed.

Lemma subscript_ret {A} (l : list A) i w x w' :
  subscript l i w = (Ret x, w') -> In x l /\ w' = w.
Proof.
  unfold subscript.
  destruct ((_ <? 0) || (_ <=? _)); [discriminate |].
  destruct (nth_error l _) eqn:E; [| discriminate].
  intros H. inversion H; subst. split; auto. eapply nth_error_In; eauto.
Qed.

Lemma open_unit_setup port w com w' :
  open_unit port w = (Ret com, w') ->
  exists c, conn_at com w' = Some c /\ command_line_of port c.
Proof.
  unfold open_unit, Serial. destruct (can_open (env w) port); [| discriminate].
  intros H. inversion H; subst.
  eexists. split; [apply nth_error_last | reflexivity].
Qed.

Lemma attempt_setup fuel ports w port com resp w1 :
  attempt fuel ports w = (Ret (port, com, resp), w1) ->
  In port ports
  /\ exists c, conn_at com w1 = Some c /\ command_line_of port c.
Proof.
  unfold attempt. intros H.
  apply bind_inv in H as [(port_num & wa & _ & H) | [(e & _ & ?) | [_ ?]]];
    try discriminate.
  apply bind_inv in H as [(i & wb & _ & H) | [(e & _ & ?) | [_ ?]]];
    try discriminate.
  apply bind_inv in H as [(p & wc & C & H) | [(e & _ & ?) | [_ ?]]];
    try discriminate.
  apply bind_inv in H as [(h & wd & O & H) | [(e & _ & ?) | [_ ?]]];
    try discriminate.
  apply bind_inv in H as [(rs & we & S & H) | [(e & _ & ?) | [_ ?]]];
    try discriminate.
  unfold ret in H. inversion H; subst p h rs we. clear H.
  apply subscript_ret in C as [C _]. split; [exact C |].
  destruct (open_unit_setup _ _ _ _ O) as (c & Hc & Sc).
  destruct (send_setup _ _ _ _ _ _ S com c Hc) as (c' & Hc' & Sc').
  exists c'. split; [exact Hc' |]. unfold command_line_of in *. congruence.
Qed.

Lemma choose_port_setup fuel ports : forall w port com w',
  choose_port fuel ports w = (Ret (port, com), w') ->
  In port ports
  /\ exists c, conn_at com w' = Some c /\ command_line_of port c.
Proof.
  induction fuel as [| f IH]; intros w port com w' H; [discriminate |].
  cbn [choose_port] in H.
  apply bind_inv in H as [([[p h] resp] & w1 & A & H) | [(e & _ & ?) | [_ ?]]];
    try discriminate.
  destruct (str_in error_text resp).
  - apply bind_inv in H as [(u & w2 & _ & H) | [(e & _ & ?) | [_ ?]]];
      try discriminate.
    eapply IH; eauto.
  - assert (H' : (Ret (p, h), w1) = (Ret (port, com), w'))
      by (destruct (str_in ok_marker resp); exact H).
    inversion H'; subst. eapply attempt_setup; eauto.
Qed.

Lemma select_port_setup fuel ports w com w' :
  select_port fuel ports w = (Ret com, w') ->
  exists port c,
    In port ports /\ conn_at com w' = Some c /\ command_line_of port c.
Proof.
  unfold select_port. intros H.
  apply bind_inv in H as [([p o] & w1 & P & H) | [(e & _ & ?) | [_ ?]]];
    try discriminate.
  destruct (1 <? List.length ports)%nat.
  - rewrite (bind_ret _ _ _ _ _ (log_at_eq _ _ _ w)) in P.
    match type of P with bind (log_ports _ _) _ ?w0 = _ =>
      destruct (log_ports_frame ports 0%N w0) as (w2 & L) end.
    rewrite (bind_ret _ _ _ _ _ L) in P.
    apply bind_inv in P as [([p' h] & w3 & C & P) | [(e & _ & ?) | [_ ?]]];
      try discriminate.
    unfold ret in P. inversion P; subst p o w3. clear P.
    simpl in H. unfold ret in H. inversion H; subst h w1.
    destruct (choose_port_setup _ _ _ _ _ _ C) as (I & c & Hc & Sc).
    eauto.
  - apply bind_inv in P as [(p' & w2 & S & P) | [(e & _ & ?) | [_ ?]]];
      try discriminate.
    unfold ret in P. inversion P; subst p o w2. clear P.
    apply subscript_ret in S as [S _].
    simpl in H. destruct (open_unit_setup _ _ _ _ H) as (c & Hc & Sc).
    eauto.
Qed.

(** X12.  The connection that [select_port] hands over is in the table, is
    open, belongs to one of the listed ports, and has the settings of the
    command line: 115200 baud, a read timeout of 10 ms, RTS/CTS on. *)
Theorem select_port_hands_over fuel ports w com w' :
  select_port fuel ports w = (Ret com, w') ->
  exists c,
    conn_at com w' = Some c /\ In (c_port c) ports
    /\ c_baudrate c = 115200%N /\ c_timeout c = Some 10
    /\ c_rtscts c = true /\ c_open c = true.
Proof.
  intros H. destruct (select_port_setup _ _ _ _ _ H) as (p & c & I & Hc & Sc).
  exists c. unfold command_line_of, setup in Sc. inversion Sc; subst.
  repeat split; auto.
Qed.

Lemma select_port_hands_over_witness :
  select_port 300 [Scenario.ttyS0] (Scenario.boot Scenario.one_port [])
  = (Ret 0%nat,
     snd (select_port 300 [Scenario.ttyS0] (Scenario.boot Scenario.one_port [])))
  /\ exists c,
       conn_at 0%nat
         (snd (select_port 300 [Scenario.ttyS0]
                 (Scenario.boot Scenario.one_port [])))
       = Some c
       /\ In (c_port c) [Scenario.ttyS0]
       /\ c_baudrate c = 115200%N /\ c_timeout c = Some 10
       /\ c_rtscts c = true /\ c_open c = true.
Proof.
  assert (A : select_port 300 [Scenario.ttyS0]
                (Scenario.boot Scenario.one_port [])
              = (Ret 0%nat,
                 snd (select_port 300 [Scenario.ttyS0]
                        (Scenario.boot Scenario.one_port []))))
    by reflexivity.
  split; [exact A |].
  exact (select_port_hands_over _ _ _ _ _ A).
Defined.

(** ** The interactive loop *)

Lemma print_resp_eq resp w :
  print_resp resp w
  = (Ret tt, set_stdout (stdout w ++ [strip resp ++ NL]) w).
Proof. reflexivity. Qed.

Lemma interact_outcome fuel com : forall w,
  match fst (interact fuel com w) with
  | Ret _ => False
  | Raise e => e = KeyboardInterrupt \/ e = EOFError
  | Diverge => True
  end.
Proof.
  induction fuel as [| f IH]; intros w; [exact I |].
  cbn [interact]. unfold bind at 1. rewrite input_eq.
  destruct (stdin w) as [| l ls]; [simpl; auto |].
  destruct (str_eqb l (lit "q")); [simpl; auto |].
  unfold bind at 1.
  pose proof (send_never_raises (S f) com (VStr l)
                (set_stdin ls (set_stdout (stdout w ++ [lit "> "]) w))) as NR.
  destruct (send (S f) com (VStr l) _) as [[resp | e |] w2].
  - rewrite (bind_ret _ _ _ _ _ (print_resp_eq resp w2)). apply IH.
  - exfalso. exact (NR e eq_refl).
  - exact I.
Qed.

(** X13.  The interactive loop never returns: it ends with
    [KeyboardInterrupt] or with [EOFError], and with nothing else.  The
    line [q] ends it with [KeyboardInterrupt] as soon as it is read: it is
    not sent, and no connection is touched. *)
Theorem interact_ends_by_exception fuel com w :
  match fst (interact fuel com w) with
  | Ret _ => False
  | Raise e => e = KeyboardInterrupt \/ e = EOFError
  | Diverge => True
  end
  /\ (forall f ls,
         fuel = S f -> stdin w = lit "q" :: ls ->
         interact fuel com w
         = (Raise KeyboardInterrupt,
            set_stdin ls (set_stdout (stdout w ++ [lit "> "]) w))).
Proof.
  split; [apply interact_outcome |].
  intros f ls -> E. cbn [interact]. unfold bind at 1.
  rewrite input_eq, E. reflexivity.
Qed.

Lemma interact_ends_by_exception_witness :
  interact 300 0%nat
    (set_stdin [lit "q"; lit "version"] (Scenario.opened Scenario.the_unit))
  = (Raise KeyboardInterrupt,
     set_stdin [lit "version"]
       (set_stdout
          (stdout (set_stdin [lit "q"; lit "version"]
                     (Scenario.opened Scenario.the_unit)) ++ [lit "> "])
          (set_stdin [lit "q"; lit "version"]
             (Scenario.opened Scenario.the_unit)))).
Proof.
  apply (proj2 (interact_ends_by_exception 300 0%nat
                  (set_stdin [lit "q"; lit "version"]
                     (Scenario.opened Scenario.the_unit)))
           299%nat [lit "version"]); reflexivity.
Defined.

(** ** The script as a whole *)

Section FrameOfScript.
Variable R : world -> world -> Prop.
Hypothesis R_refl : forall w, R w w.
Hypothesis R_trans : forall a b c, R a b -> R b c -> R a c.
Hypothesis R_inWaiting : forall com, keeps R (inWaiting com).
Hypothesis R_read : forall com n, keeps R (read com n).
Hypothesis R_write : forall com b, keeps R (write com b).
Hypothesis R_sleep : forall ms, keeps R (time_sleep ms).
Hypothesis R_print : forall s, keeps R (print s).
Hypothesis R_input : forall s, keeps R (input s).
Hypothesis R_log : forall n l m, keeps R (log_at n l m).




End FrameOfScript.


Section Raises.
Variable P : exn -> Prop.

Lemma ro_ret {A} (a : A) : raises_only P (ret a).
Proof. intros w e w' H. discriminate. Qed.

Lemma ro_bind {A B} (m : M A) (k : A -> M B) :
  raises_only P m -> (forall a, raises_only P (k a)) ->
  raises_only P (bind m k).
Proof.
  intros Hm Hk w e w' H.
  apply bind_inv in H as [(a & w1 & H1 & H2) | [(e' & H1 & E) | [_ ?]]];
    try discriminate.
  - eapply Hk; eauto.
  - inversion E; subst. eapply Hm; eauto.
Qed.

Lemma ro_log n l m : raises_only P (log_at n l m).
Proof. intros w e w' H. discriminate. Qed.

Lemma ro_print s : raises_only P (print s).
Proof. intros w e w' H. discriminate. Qed.

Lemma ro_send fuel com cmd : raises_only P (send fuel com cmd).
Proof.
  intros w e w' H. exfalso.
  apply (send_never_raises fuel com cmd w e). now rewrite H.
Qed.

Lemma ro_print_ports ports : forall n, raises_only P (print_ports n ports).
Proof.
  induction ports as [| p rest IH]; intros n; cbn [print_ports].
  - apply ro_ret.
  - apply ro_bind; [apply ro_print | intros _; apply IH].
Qed.

Lemma ro_log_ports ports : forall n, raises_only P (log_ports n ports).
Proof.
  induction ports as [| p rest IH]; intros n; cbn [log_ports].
  - apply ro_ret.
  - apply ro_bind; [apply ro_log | intros _; apply IH].
Qed.

Hypothesis P_eof : P EOFError.
Hypothesis P_value : P ValueError.
Hypothesis P_index : P IndexError.
Hypothesis P_serial : P SerialException.

Lemma ro_input s : raises_only P (input s).
Proof.
  intros w e w' H. rewrite input_eq in H.
  destruct (stdin w); inversion H; subst. exact P_eof.
Qed.

Lemma ro_py_int s : raises_only P (py_int s).
Proof.
  intros w e w' H. unfold py_int in H.
  destruct (int_of_str (env w) s); inversion H; subst. exact P_value.
Qed.

Lemma ro_subscript {A} (l : list A) i : raises_only P (subscript l i).
Proof.
  intros w e w' H. unfold subscript in H.
  destruct ((_ <? 0) || (_ <=? _)); [inversion H; subst; exact P_index |].
  destruct (nth_error l _); inversion H; subst. exact P_index.
Qed.

Lemma ro_open_unit port : raises_only P (open_unit port).
Proof.
  intros w e w' H. unfold open_unit, Serial in H.
  destruct (can_open (env w) port); inversion H; subst. exact P_serial.
Qed.

Lemma ro_choose_port fuel ports : raises_only P (choose_port fuel ports).
Proof.
  induction fuel as [| f IH]; cbn [choose_port].
  - intros w e w' H. discriminate.
  - apply ro_bind.
    + unfold attempt.
      apply ro_bind; [apply ro_input |]. intros port_num.
      apply ro_bind; [apply ro_py_int |]. intros i.
      apply ro_bind; [apply ro_subscript |]. intros port.
      apply ro_bind; [apply ro_open_unit |]. intros com.
      apply ro_bind; [apply ro_send |]. intros resp. apply ro_ret.
    + intros [[port com] resp]. destruct (str_in error_text resp).
      * apply ro_bind; [apply ro_print | intros _; apply IH].
      * destruct (str_in ok_marker resp); apply ro_ret.
Qed.

Lemma ro_select_port fuel ports : raises_only P (select_port fuel ports).
Proof.
  unfold select_port. apply ro_bind.
  - destruct (1 <? List.length ports)%nat.
    + apply ro_bind; [apply ro_log |]. intros _.
      apply ro_bind; [apply ro_log_ports |]. intros _.
      apply ro_bind; [apply ro_choose_port |]. intros pc. apply ro_ret.
    + apply ro_bind; [apply ro_subscript |]. intros port. apply ro_ret.
  - intros [p [com |]]; [apply ro_ret | apply ro_open_unit].
Qed.

Lemma ro_get_ports self : raises_only P (get_ports self).
Proof.
  intros w e w' H.
  destruct (get_ports_spec self w) as (w1 & made & S & _).
  rewrite S in H. discriminate.
Qed.

Lemma ro_wait_for_ports fuel : raises_only P (wait_for_ports fuel).
Proof.
  induction fuel as [| f IH]; cbn [wait_for_ports].
  - intros w e w' H. discriminate.
  - apply ro_bind; [apply ro_get_ports |]. intros [| p ps].
    + apply ro_bind; [apply ro_log |]. intros _.
      apply ro_bind; [apply ro_input |]. intros _. exact IH.
    + apply ro_ret.
Qed.

Lemma ro_get_connection fuel a : raises_only P (get_connection fuel a).
Proof.
  unfold get_connection. destruct (given (a_port a)).
  - apply ro_open_unit.
  - apply ro_bind; [apply ro_wait_for_ports |]. intros ports.
    apply ro_bind; [apply ro_print |]. intros _.
    apply ro_bind; [apply ro_print_ports |]. intros _.
    apply ro_select_port.
Qed.
End Raises.






(** X15.  Until it has its connection, the script fails in four ways
    only: [EOFError] at the end of the keyboard input, [ValueError] and
    [IndexError] from the operator's line, and [SerialException] from a
    port that does not open. *)
Theorem get_connection_failures fuel a w e w' :
  get_connection fuel a w = (Raise e, w') -> selection_failure e.
Proof.
  apply (ro_get_connection selection_failure); unfold selection_failure; auto.
Qed.

Lemma get_connection_failures_witness :
  get_connection 300
    {| a_command := None; a_port := Some Scenario.ttyUSB9; a_verbosity := 0 |}
    (Scenario.boot Scenario.two_ports [])
  = (Raise SerialException, Scenario.boot Scenario.two_ports [])
  /\ selection_failure SerialException.
Proof.
  assert (H : get_connection 300
                {| a_command := None; a_port := Some Scenario.ttyUSB9;
                   a_verbosity := 0 |}
                (Scenario.boot Scenario.two_ports [])
              = (Raise SerialException, Scenario.boot Scenario.two_ports []))
    by reflexivity.
  split; [exact H |].
  exact (get_connection_failures _ _ _ _ _ H).
Defined.












(** ** Text on the wire and on the screen *)

Lemma to_N_octet n : (n < 256)%N -> Byte.to_N (octet n) = n.
Proof.
  intros H. unfold octet. rewrite N.mod_small by exact H.
  destruct (Byte.of_N n) eqn:E.
  - now apply Byte.to_of_N.
  - apply Byte.of_N_None_iff in E. lia.
Qed.

Ltac div_mod_lia := zify; Z.to_euclidean_division_equations; lia.

Lemma in_range_true lo hi b :
  (lo <= Byte.to_N b <= hi)%N -> in_range lo hi b = true.
Proof.
  intros [H1 H2]. unfold in_range. apply andb_true_iff.
  split; now apply N.leb_le.
Qed.

Lemma in_range_false lo hi b :
  (Byte.to_N b < lo \/ hi < Byte.to_N b)%N -> in_range lo hi b = false.
Proof.
  intros H. unfold in_range. apply andb_false_iff.
  destruct H; [left | right]; now apply N.leb_gt.
Qed.

Lemma decode_one b0 rest :
  (Byte.to_N b0 < 128)%N ->
  decode (b0 :: rest) = option_map (cons (Byte.to_N b0)) (decode rest).
Proof.
  intros H. cbn [decode].
  destruct (N.ltb_spec (Byte.to_N b0) 128); [reflexivity | lia].
Qed.

Lemma decode_two b0 b1 rest :
  (194 <= Byte.to_N b0 <= 223)%N -> (128 <= Byte.to_N b1 <= 191)%N ->
  decode (b0 :: b1 :: rest)
  = option_map (cons ((Byte.to_N b0 - 192) * 64 + low6 b1)%N) (decode rest).
Proof.
  intros H0 H1. cbn [decode].
  destruct (N.ltb_spec (Byte.to_N b0) 128); [lia |].
  now rewrite (in_range_true 194 223 b0 H0), (in_range_true 128 191 b1 H1).
Qed.

Lemma decode_three b0 b1 b2 rest :
  (224 <= Byte.to_N b0 <= 239)%N ->
  ((if Byte.to_N b0 =? 224 then 160 else 128) <= Byte.to_N b1
   <= (if Byte.to_N b0 =? 237 then 159 else 191))%N ->
  (128 <= Byte.to_N b2 <= 191)%N ->
  decode (b0 :: b1 :: b2 :: rest)
  = option_map
      (cons ((Byte.to_N b0 - 224) * 4096 + low6 b1 * 64 + low6 b2)%N)
      (decode rest).
Proof.
  intros H0 H1 H2. cbn [decode].
  destruct (N.ltb_spec (Byte.to_N b0) 128); [lia |].
  rewrite (in_range_false 194 223 b0) by lia.
  rewrite (in_range_true 224 239 b0 H0).
  now rewrite (in_range_true _ _ b1 H1), (in_range_true 128 191 b2 H2).
Qed.

Lemma decode_four b0 b1 b2 b3 rest :
  (240 <= Byte.to_N b0 <= 244)%N ->
  ((if Byte.to_N b0 =? 240 then 144 else 128) <= Byte.to_N b1
   <= (if Byte.to_N b0 =? 244 then 143 else 191))%N ->
  (128 <= Byte.to_N b2 <= 191)%N -> (128 <= Byte.to_N b3 <= 191)%N ->
  decode (b0 :: b1 :: b2 :: b3 :: rest)
  = option_map
      (cons ((Byte.to_N b0 - 240) * 262144 + low6 b1 * 4096
             + low6 b2 * 64 + low6 b3)%N)
      (decode rest).
Proof.
  intros H0 H1 H2 H3. cbn [decode].
  destruct (N.ltb_spec (Byte.to_N b0) 128); [lia |].
  rewrite (in_range_false 194 223 b0) by lia.
  rewrite (in_range_false 224 239 b0) by lia.
  rewrite (in_range_true 240 244 b0 H0).
  now rewrite (in_range_true _ _ b1 H1), (in_range_true 128 191 b2 H2),
    (in_range_true 128 191 b3 H3).
Qed.

(** Decoding takes the encoding of a code point off the front. *)
Lemma decode_encode_cp c b rest :
  encode_cp c = Some b ->
  decode (b ++ rest) = option_map (cons c) (decode rest).
Proof.
  unfold encode_cp.
  destruct (N.ltb_spec c 128); [| destruct (N.ltb_spec c 2048);
    [| destruct (N.ltb_spec c 65536);
       [destruct ((55296 <=? c)%N && (c <=? 57343)%N) eqn:S |
        destruct (N.ltb_spec c 1114112)]]];
    intros E; try discriminate E;
    apply (f_equal (fun o => match o with Some l => l | None => [] end)) in E;
    cbv beta iota in E; subst b.
  - cbn [app]. rewrite decode_one; rewrite to_N_octet by lia;
      [reflexivity | lia].
  - cbn [app].
    assert (A0 : Byte.to_N (octet (192 + c / 64)) = (192 + c / 64)%N)
      by (apply to_N_octet; div_mod_lia).
    assert (A1 : Byte.to_N (octet (128 + c mod 64)) = (128 + c mod 64)%N)
      by (apply to_N_octet; div_mod_lia).
    generalize dependent (octet (192 + c / 64)). intros b0 A0.
    generalize dependent (octet (128 + c mod 64)). intros b1 A1.
    rewrite decode_two; unfold low6; rewrite ?A0, ?A1;
      [| div_mod_lia | div_mod_lia].
    f_equal. f_equal. div_mod_lia.
  - assert (S' : (c < 55296 \/ 57343 < c)%N).
    { apply andb_false_iff in S as [S | S]; apply N.leb_gt in S; lia. }
    clear S. cbn [app].
    assert (A0 : Byte.to_N (octet (224 + c / 4096)) = (224 + c / 4096)%N)
      by (apply to_N_octet; div_mod_lia).
    assert (A1 : Byte.to_N (octet (128 + (c / 64) mod 64))
                 = (128 + (c / 64) mod 64)%N)
      by (apply to_N_octet; div_mod_lia).
    assert (A2 : Byte.to_N (octet (128 + c mod 64)) = (128 + c mod 64)%N)
      by (apply to_N_octet; div_mod_lia).
    generalize dependent (octet (224 + c / 4096)). intros b0 A0.
    generalize dependent (octet (128 + (c / 64) mod 64)). intros b1 A1.
    generalize dependent (octet (128 + c mod 64)). intros b2 A2.
    rewrite decode_three; unfold low6; rewrite ?A0, ?A1, ?A2.
    + f_equal. f_equal. div_mod_lia.
    + div_mod_lia.
    + destruct (N.eqb_spec (224 + c / 4096) 224);
        destruct (N.eqb_spec (224 + c / 4096) 237); div_mod_lia.
    + div_mod_lia.
  - cbn [app].
    assert (A0 : Byte.to_N (octet (240 + c / 262144)) = (240 + c / 262144)%N)
      by (apply to_N_octet; div_mod_lia).
    assert (A1 : Byte.to_N (octet (128 + (c / 4096) mod 64))
                 = (128 + (c / 4096) mod 64)%N)
      by (apply to_N_octet; div_mod_lia).
    assert (A2 : Byte.to_N (octet (128 + (c / 64) mod 64))
                 = (128 + (c / 64) mod 64)%N)
      by (apply to_N_octet; div_mod_lia).
    assert (A3 : Byte.to_N (octet (128 + c mod 64)) = (128 + c mod 64)%N)
      by (apply to_N_octet; div_mod_lia).
    generalize dependent (octet (240 + c / 262144)). intros b0 A0.
    generalize dependent (octet (128 + (c / 4096) mod 64)). intros b1 A1.
    generalize dependent (octet (128 + (c / 64) mod 64)). intros b2 A2.
    generalize dependent (octet (128 + c mod 64)). intros b3 A3.
    rewrite decode_four; unfold low6; rewrite ?A0, ?A1, ?A2, ?A3.
    + f_equal. f_equal. div_mod_lia.
    + div_mod_lia.
    + destruct (N.eqb_spec (240 + c / 262144) 240);
        destruct (N.eqb_spec (240 + c / 262144) 244); div_mod_lia.
    + div_mod_lia.
    + div_mod_lia.
Qed.

Lemma decode_encode s : forall b, encode s = Some b -> decode b = Some s.
Proof.
  induction s as [| c s IH]; intros b E; cbn [encode] in E.
  - inversion E. reflexivity.
  - destruct (encode_cp c) as [bc |] eqn:Ec; [| discriminate].
    destruct (encode s) as [bs |]; [| discriminate].
    inversion E; subst b.
    rewrite (decode_encode_cp c bc bs Ec), (IH bs eq_refl). reflexivity.
Qed.

(** X17.  Text survives the wire.  The line that is written for a command
    decodes back to the command and its newline; and when the buffer that
    the receiving loop ends with is the UTF-8 of a text, [request_bap]
    returns that very text. *)
Theorem text_survives_the_wire :
  (forall s data, encode (s ++ NL) = Some data -> decode data = Some (s ++ NL))
  /\ (forall fuel com s w t0 w1 r w2 text,
         start_request fuel com s w = (Ret t0, w1) ->
         receive fuel com t0 [] w1 = (Ret r, w2) ->
         encode text = Some r ->
         request_bap fuel com (VStr s) w = (Ret text, w2)).
Proof.
  split.
  - intros s data E. now apply decode_encode.
  - intros fuel com s w t0 w1 r w2 text E R En.
    rewrite (request_bap_unfold _ _ _ _ _ _ E), (bind_ret _ _ _ _ _ R).
    unfold bytes_decode. now rewrite (decode_encode _ _ En).
Qed.

Lemma text_survives_the_wire_witness :
  decode version_line = Some (version ++ NL)
  /\ fst (request_bap 300 0%nat (VStr version)
            (Scenario.opened Scenario.the_unit))
     = Ret (lit "cpufw 1.0 4798 dspfw 1.0" ++ [10%N] ++ lit "200 OK"
            ++ [10; 10]%N).
Proof.
  split.
  - apply (proj1 text_survives_the_wire version version_line). reflexivity.
  - assert (H1 : start_request 300 0%nat version
                   (Scenario.opened Scenario.the_unit)
                 = (Ret 0, Scenario.asked Scenario.the_unit))
      by (vm_compute; reflexivity).
    assert (H2 : receive 300 0%nat 0 [] (Scenario.asked Scenario.the_unit)
                 = (Ret Scenario.unit_reply,
                    snd (receive 300 0%nat 0 []
                           (Scenario.asked Scenario.the_unit))))
      by (vm_compute; reflexivity).
    assert (H3 : encode (lit "cpufw 1.0 4798 dspfw 1.0" ++ [10%N]
                         ++ lit "200 OK" ++ [10; 10]%N)
                 = Some Scenario.unit_reply)
      by (vm_compute; reflexivity).
    now rewrite (proj2 text_survives_the_wire _ _ _ _ _ _ _ _ _ H1 H2 H3).
Defined.



